(** * Migration sequencer and call resolver of the injection tool

    A shallow embedding of [createCall] and [migrate] (the migrate action
    of the injection tool) together with the properties of the resolver,
    of the completeness check, of the authorization gate, of the nonce
    counter and of the pacing flag.

    Conventions of the embedding.
    - JavaScript values read from the transaction log are trees
      ([JsValue]); a property read follows the JavaScript rules (a read
      on [undefined] or [null] throws a [TypeError], a missing property
      reads as [undefined]).
    - A thrown exception is the [Throw] result; the code has a single
      [try]/[catch], around the unsigned submission.
    - [console.log], the two submission calls and [sleep] are recorded,
      in order, in a trace of [Event]s that the sequencer threads along.
    - Numbers are mathematical integers: block numbers and nonces are far
      below 2^53, where JavaScript numbers are exact. *)

From Stdlib Require Import ZArith List String Ascii Bool Arith Lia.
From Stdlib Require Import Sorted Permutation.
Import ListNotations.

Set Warnings "-register-all".

Local Open Scope string_scope.
Local Open Scope list_scope.
Local Open Scope Z_scope.

(* ================================================================== *)
(** ** JavaScript values *)
(* ================================================================== *)

Inductive JsValue : Type :=
| JUndefined
| JNull
| JBool (b : bool)
| JNum (n : Z)
| JStr (s : string)
| JArr (elems : list JsValue)
| JObj (props : list (string * JsValue))
| JNative (name : string).   (* a built-in function inherited from a prototype *)

(** Exceptions the two functions can raise. *)
Inductive Error : Type :=
| TypeError (what : string)
| MetaCallNotFound (callIndex : JsValue)
| MethodMissing (section method : string)
| MissingBlock (count : Z) (got : Z)
| NotSudoSigner (got expected : string)
| Rejected (reason : string)
| FailedSubmitting (err : Error).

(** Outcome of a computation: a value, a thrown exception, or the
    recursion budget of the embedding used up. *)
Inductive Result (A : Type) : Type :=
| Ok (a : A)
| Throw (e : Error)
| OutOfFuel.

Arguments Ok {A} a.
Arguments Throw {A} e.
Arguments OutOfFuel {A}.

Definition rbind {A B : Type} (r : Result A) (k : A -> Result B) : Result B :=
  match r with
  | Ok a => k a
  | Throw e => Throw e
  | OutOfFuel => OutOfFuel
  end.

Declare Scope result_scope.
Delimit Scope result_scope with res.
Notation "x <- e ;; k" := (rbind e (fun x => k))
  (at level 61, e at next level, right associativity) : result_scope.
Local Open Scope result_scope.

(** [mapM f l]: [Array.prototype.map] with a callback that may throw;
    the elements are visited from left to right and the first exception
    ends the traversal. *)
Fixpoint mapM {A B : Type} (f : A -> Result B) (l : list A) : Result (list B) :=
  match l with
  | [] => Ok []
  | x :: xs => y <- f x ;; ys <- mapM f xs ;; Ok (y :: ys)
  end.

Fixpoint assoc (name : string) (props : list (string * JsValue)) : option JsValue :=
  match props with
  | [] => None
  | (k, v) :: rest => if String.eqb k name then Some v else assoc name rest
  end.

(** [get v name] is the property read [v.name], for the names the source
    reads ([args], [callIndex], [call], [calls], [keys], [code],
    [signer], ...).  None of them is an array index or a property of
    [Object.prototype] or [String.prototype]; of [Array.prototype] only
    [keys] is. *)
Definition get (v : JsValue) (name : string) : Result JsValue :=
  match v with
  | JUndefined | JNull => Throw (TypeError ("Cannot read property " ++ name)%string)
  | JObj props =>
      match assoc name props with
      | Some x => Ok x
      | None => Ok JUndefined
      end
  | JArr _ => if String.eqb name "keys" then Ok (JNative "keys") else Ok JUndefined
  | _ => Ok JUndefined
  end.

(** JavaScript truthiness, as the [&&] and [if] tests of the source use it. *)
Definition truthy (v : JsValue) : bool :=
  match v with
  | JUndefined | JNull => false
  | JBool b => b
  | JNum n => negb (n =? 0)
  | JStr s => negb (String.eqb s EmptyString)
  | JArr _ | JObj _ | JNative _ => true
  end.

(** Nesting depth of a value: the measure of the resolver's recursion. *)
Fixpoint depth (v : JsValue) : nat :=
  match v with
  | JArr elems => S (list_max (map depth elems))
  | JObj props => S (list_max (map (fun p => depth (snd p)) props))
  | _ => O
  end.

(* ================================================================== *)
(** ** Calls and the network client *)
(* ================================================================== *)

(** A call built by the client's constructor [api.tx[section][method]]:
    the constructor is taken to record the section, the method and the
    positional arguments it was given.  An argument is a value of the
    log, a call, or an array of calls. *)
Inductive Call : Type :=
| mkCall (section method : string) (args : list Arg)
with Arg : Type :=
| ArgVal (v : JsValue)
| ArgCall (c : Call)
| ArgCalls (cs : list Call).

Definition call_section (c : Call) : string :=
  match c with mkCall s _ _ => s end.
Definition call_method (c : Call) : string :=
  match c with mkCall _ m _ => m end.
Definition call_args (c : Call) : list Arg :=
  match c with mkCall _ _ a => a end.

(** What the sequencer prints with [console.log]: the text of each
    message is fixed by the source, so a message is recorded by its kind
    and the values interpolated into it. *)
Inductive LogMsg : Type :=
| SignerAddress (address : string)
| CheckingBlock (number : Z)
| SkippingIgnoreMethod (method : string)
| SkippingRuntimeUpgrade
| StubbingUnsigned
| Migrating (currentNonce : Z) (module : string) (txType : option string)
            (signer : JsValue).

(** The options object a caller may hand to [signAndSend]. *)
Record SignerOptions : Type := { nonce : Z }.

(** Observable actions of a run, in the order they happen.
    - [Send c] is [c.send(callback)], the unsigned submission;
    - [SignAndSend c account options nonceStr pastHash] is
      [c.signAndSend(account, options, callback)] where [options] is
      [None] when the call passes an account and a callback only, and
      [nonceStr], [pastHash] are the two values the callback closes over
      for its status messages;
    - [Sleep ms] is [await sleep(ms)]. *)
Inductive Event : Type :=
| ConsoleLog (msg : LogMsg)
| Send (extrinsic : Call)
| SignAndSend (extrinsic : Call) (account : string)
              (options : option SignerOptions) (nonceStr : Z) (pastHash : JsValue)
| Sleep (ms : Z).

(** The part of the connected client ([ApiPromise]) the two functions
    use.  [findMetaCall] stands for
    [api.registry.findMetaCall(hexToU8a(callIndex))], [None] when either
    call throws.  [hasSection s] says that [api.tx[s]] is defined and
    [hasMethod s m] that [api.tx[s][m]] is a constructor.  [rejects]
    is the node's answer to a submission: given the trace up to and
    including the submission, the reason of the rejection if the
    awaited promise rejects. *)
Record ApiPromise : Type := {
  findMetaCall : JsValue -> option (string * string);
  hasSection : string -> bool;
  hasMethod : string -> string -> bool;
  sudoKey : string;
  accountNonce : string -> Z;
  rejects : list Event -> option string
}.

(** Evaluation of the callee [api.tx[section][method]]: reading a member
    of an undefined section throws at once; an undefined member is only
    found out when it is applied, after the arguments were evaluated. *)
Definition callee (api : ApiPromise) (section : string) (method : option string)
  : Result bool :=
  if hasSection api section then
    Ok (match method with
        | Some m => hasMethod api section m
        | None => false
        end)
  else Throw (TypeError "Cannot read property of undefined").

Definition txName (method : option string) : string :=
  match method with Some m => m | None => "undefined" end.

Definition invoke (fn : bool) (section : string) (method : option string)
  (args : list Arg) : Result Call :=
  if fn then Ok (mkCall section (txName method) args)
  else Throw (TypeError "api.tx[...][...] is not a function").

(** [api.tx[section][method](a1, ..., an)]: callee, then the arguments
    from left to right, then the application. *)
Definition tx (api : ApiPromise) (section : string) (method : option string)
  (args : Result (list Arg)) : Result Call :=
  fn <- callee api section method ;;
  a <- args ;;
  invoke fn section method a.

(** The arguments [args.f1, ..., args.fn], read from left to right. *)
Definition fields (args : JsValue) (names : list string) : Result (list Arg) :=
  mapM (fun name => v <- get args name ;; Ok (ArgVal v)) names.

(* ================================================================== *)
(** ** The call resolver: [createCall] *)
(* ================================================================== *)

(** [args.calls.map(f)]: [map] is a function only on arrays. *)
Definition arrayMap {B : Type} (v : JsValue) (f : JsValue -> Result B)
  : Result (list B) :=
  match v with
  | JArr elems => mapM f elems
  | JUndefined | JNull => Throw (TypeError "Cannot read property map")
  | _ => Throw (TypeError "map is not a function")
  end.

(** The methods the resolver has a rule for (the labels of its switch). *)
Definition supported : list string :=
  [ "killStorage"; "setStorage"; "bond"; "nominate"; "setController";
    "setKeys"; "validate"; "forceTransfer"; "transfer"; "proxy"; "sudo";
    "batch"; "anonymous" ].

Section Resolver.

Variable api : ApiPromise.

(** [createCall api fuel details] is [createCall(api, details)], with one
    unit of [fuel] per nested activation of the function. *)
Fixpoint createCall (fuel : nat) (details : JsValue) : Result Call :=
  match fuel with
  | O => OutOfFuel
  | S fuel' =>
      args <- get details "args" ;;
      callIndex <- get details "callIndex" ;;
      match findMetaCall api callIndex with
      | None => Throw (MetaCallNotFound callIndex)
      | Some (section, method) =>
          let rule names := tx api section (Some method) (fields args names) in
          if String.eqb method "killStorage" then rule ["keys"]
          else if String.eqb method "setStorage" then rule ["items"]
          else if String.eqb method "bond" then rule ["controller"; "value"; "payee"]
          else if String.eqb method "nominate" then rule ["targets"]
          else if String.eqb method "setController" then rule ["controller"]
          else if String.eqb method "setKeys" then rule ["keys"; "proof"]
          else if String.eqb method "validate" then rule ["prefs"]
          else if String.eqb method "forceTransfer" then rule ["source"; "dest"; "value"]
          else if String.eqb method "transfer" then rule ["dest"; "value"]
          else if String.eqb method "proxy" then
            nested <- get args "call" ;;
            call <- createCall fuel' nested ;;
            tx api section (Some method)
               (front <- fields args ["real"; "force_proxy_type"] ;;
                Ok (front ++ [ArgCall call]))
          else if String.eqb method "sudo" then
            tx api section (Some method)
               (nested <- get args "call" ;;
                call <- createCall fuel' nested ;;
                Ok [ArgCall call])
          else if String.eqb method "batch" then
            nested <- get args "calls" ;;
            calls <- arrayMap nested (createCall fuel') ;;
            tx api section (Some method) (Ok [ArgCalls calls])
          else if String.eqb method "anonymous" then rule ["proxy_type"; "index"]
          else Throw (MethodMissing section method)
      end
  end.

End Resolver.

(** Fuel that lets [createCall] run to its end on [details]. *)
Definition fuelFor (details : JsValue) : nat := S (depth details).

(** [createCall(api, details)] as the sequencer calls it. *)
Definition resolve (api : ApiPromise) (details : JsValue) : Result Call :=
  createCall api (fuelFor details) details.

(** The (section, method) pair the registry gives for the descriptor's
    call index, when there is one. *)
Definition resolvedName (api : ApiPromise) (details : JsValue)
  : option (string * string) :=
  match get details "callIndex" with
  | Ok callIndex => findMetaCall api callIndex
  | _ => None
  end.

(* ================================================================== *)
(** ** The transaction log *)
(* ================================================================== *)

(** Modelled from the spec: the record type [Block] and the type of its
    extrinsics, which the source imports from [./types].
    A block record is [{ number, extrinsics }]; a transaction record is
    [{ method, args, hash, signature }] with [args] an ordered sequence
    of opaque values and [signature] either [{ signer }] or absent. *)
Record Extrinsic : Type := {
  args : list JsValue;
  hash : JsValue;
  method : string;
  signature : JsValue
}.

Record Block : Type := {
  extrinsics : list Extrinsic;
  number : Z
}.

Record Options : Type := {
  dbPath : string;
  dry : bool;
  ensureComplete : bool;
  trickle : bool;
  suri : string;
  wsEndpoint : string
}.

(** What [migrate] takes from its surroundings.
    - [readDb path]: the records of the log file, parsed, in the order of
      the file's lines (reading, splitting and [JSON.parse] happen before
      anything modelled here);
    - [initApi endpoint]: the connected client;
    - [initializeSigner suri]: the address of the signer derived from
      the secret (from [./helpers]);
    - [IgnoreMethods]: the ignore list (from [./consts]). *)
Record Env : Type := {
  readDb : string -> list Block;
  initApi : string -> ApiPromise;
  initializeSigner : string -> string;
  IgnoreMethods : list string
}.

(** [blocks.sort((a, b) => a.number - b.number)]: ascending by number,
    records of equal number keeping their order (the sort is stable). *)
Fixpoint insertBlock (b : Block) (sorted : list Block) : list Block :=
  match sorted with
  | [] => [b]
  | x :: xs =>
      if number b <=? number x then b :: x :: xs
      else x :: insertBlock b xs
  end.

Definition sortBlocks (blocks : list Block) : list Block :=
  fold_right insertBlock [] blocks.

(** [blocks[i]], for the reads of the completeness loop. *)
Definition blockAt (blocks : list Block) (i : nat) : Result Block :=
  match nth_error blocks i with
  | Some b => Ok b
  | None => Throw (TypeError "Cannot read property number of undefined")
  end.

(** The [while (count < blocks.length)] loop of the completeness check,
    entered with the current value of [count]. *)
Fixpoint completeLoop (fuel : nat) (blocks : list Block) (count : nat)
  : Result unit :=
  if (count <? List.length blocks)%nat then
    match fuel with
    | O => OutOfFuel
    | S fuel' =>
        checked <- blockAt blocks (count - 1) ;;
        if negb (number checked =? Z.of_nat count) then
          got <- blockAt blocks count ;;
          Throw (MissingBlock (Z.of_nat count) (number got))
        else completeLoop fuel' blocks (S count)
    end
  else Ok tt.

(** [let count = 1; while ...]. *)
Definition checkComplete (blocks : list Block) : Result unit :=
  completeLoop (List.length blocks) blocks 1.

(** [s.split(sep)] for a one-character separator. *)
Fixpoint split (sep : ascii) (s : string) : list string :=
  match s with
  | EmptyString => [EmptyString]
  | String c rest =>
      if Ascii.eqb c sep then EmptyString :: split sep rest
      else match split sep rest with
           | piece :: pieces => String c piece :: pieces
           | [] => [String c EmptyString]
           end
  end.

(** [list.includes(x)] on strings. *)
Definition includes (l : list string) (x : string) : bool :=
  existsb (String.eqb x) l.

(** [txType === name], where [txType] is [undefined] when the method
    name has no second component. *)
Definition isType (txType : option string) (name : string) : bool :=
  match txType with
  | Some t => String.eqb t name
  | None => false
  end.

(* ================================================================== *)
(** ** Effects of the sequencer *)
(* ================================================================== *)

(** A computation of the sequencer extends the trace of the run and
    ends with a value or an exception. *)
Definition M (A : Type) : Type := list Event -> list Event * Result A.

Definition ret {A : Type} (a : A) : M A := fun tr => (tr, Ok a).

Definition bind {A B : Type} (m : M A) (k : A -> M B) : M B :=
  fun tr =>
    match m tr with
    | (tr', Ok a) => k a tr'
    | (tr', Throw e) => (tr', Throw e)
    | (tr', OutOfFuel) => (tr', OutOfFuel)
    end.

Definition throw {A : Type} (e : Error) : M A := fun tr => (tr, Throw e).

Definition lift {A : Type} (r : Result A) : M A := fun tr => (tr, r).

Definition emit (e : Event) : M unit := fun tr => (tr ++ [e], Ok tt).

Definition log (msg : LogMsg) : M unit := emit (ConsoleLog msg).

Definition sleep (ms : Z) : M unit := emit (Sleep ms).

(** [await] of a submission: the call is made, then the promise either
    resolves or rejects. *)
Definition submit (api : ApiPromise) (e : Event) : M unit :=
  fun tr =>
    let tr' := tr ++ [e] in
    match rejects api tr' with
    | Some reason => (tr', Throw (Rejected reason))
    | None => (tr', Ok tt)
    end.

(** [try { body } catch (err) { handler err }]. *)
Definition tryCatch {A : Type} (body : M A) (handler : Error -> M A) : M A :=
  fun tr =>
    match body tr with
    | (tr', Throw e) => handler e tr'
    | other => other
    end.

Declare Scope seq_scope.
Delimit Scope seq_scope with seq.
Notation "x <~ e ;; k" := (bind e (fun x => k))
  (at level 61, e at next level, right associativity) : seq_scope.
Local Open Scope seq_scope.

(** [for (const x of l) { st = body st x }]. *)
Fixpoint forOf {A S : Type} (body : S -> A -> M S) (st : S) (l : list A) : M S :=
  match l with
  | [] => ret st
  | x :: xs => st' <~ body st x ;; forOf body st' xs
  end.

(* ================================================================== *)
(** ** The sequencer: [migrate] *)
(* ================================================================== *)

(** The two variables the loops of [migrate] update: [let index = 0] and
    [let wait = false]. *)
Record Loop : Type := { index : nat; wait : bool }.

Definition setWait (st : Loop) : Loop := {| index := index st; wait := true |}.
Definition incrIndex (st : Loop) : Loop :=
  {| index := S (index st); wait := wait st |}.

(** The test [txType === "sudoUncheckedWeight" && args[0].args.code]. *)
Definition isRuntimeUpgrade (txType : option string) (args : list JsValue)
  : Result bool :=
  if isType txType "sudoUncheckedWeight" then
    inner <- get (nth 0 args JUndefined) "args" ;;
    code <- get inner "code" ;;
    Ok (truthy code)
  else Ok false.

(** The [switch (txType)] that constructs the proposal. *)
Definition constructProposal (api : ApiPromise) (module : string)
  (txType : option string) (args : list JsValue) : Result Call :=
  let arg i := nth i args JUndefined in
  let resolve := resolve api in
  if isType txType "batch" then
    calls <- arrayMap (arg 0%nat) resolve ;;
    tx api module txType (Ok [ArgCalls calls])
  else if isType txType "sudo" then
    tx api module txType
       (call <- resolve (arg 0%nat) ;; Ok [ArgCall call])
  else if isType txType "sudoUncheckedWeight" then
    tx api module txType
       (call <- resolve (arg 0%nat) ;; Ok [ArgCall call; ArgVal (arg 1%nat)])
  else if isType txType "asMulti" then
    tx api module txType
       (call <- resolve (arg 3%nat) ;;
        Ok [ArgVal (arg 0%nat); ArgVal (arg 1%nat); ArgVal (arg 2%nat); ArgCall call])
  else tx api module txType (Ok (map ArgVal args)).

Section Sequencer.

(** What the loops of [migrate] close over. *)
Variable api : ApiPromise.
Variable ignored : list string.        (* IgnoreMethods *)
Variables dry_ trickle_ : bool.        (* opts.dry, opts.trickle *)
Variable mySigner : string.            (* mySigner.address *)
Variable startingNonce : Z.

(** The unsigned path, the body of the [try]. *)
Definition sendUnsigned (st : Loop) (module : string)
  (txType : option string) (args : list JsValue) : M Loop :=
  if negb dry_ then
    call <~ lift (tx api module txType (Ok (map ArgVal args))) ;;
    _ <~ submit api (Send call) ;;
    ret (if trickle_ then setWait st else st)
  else
    _ <~ log StubbingUnsigned ;;
    ret st.

(** The signed path, the [else] branch. *)
Definition sendSigned (st : Loop) (module : string)
  (txType : option string) (extrinsic : Extrinsic) : M Loop :=
  signer <~ lift (get (signature extrinsic) "signer") ;;
  let currentNonce := startingNonce + Z.of_nat (index st) in
  proposal <~ lift (constructProposal api module txType (args extrinsic)) ;;
  _ <~ log (Migrating currentNonce module txType signer) ;;
  st' <~ (if negb dry_ then
            sudoAs <~ lift (tx api "sudo" (Some "sudoAs")
                               (Ok [ArgVal signer; ArgCall proposal])) ;;
            _ <~ submit api (SignAndSend sudoAs mySigner None currentNonce
                                         (hash extrinsic)) ;;
            ret (if trickle_ then setWait st else st)
          else ret st) ;;
  ret (incrIndex st').

(** The body of the inner loop, [for (const extrinsic of extrinsics)]. *)
Definition processExtrinsic (st : Loop) (extrinsic : Extrinsic) : M Loop :=
  if includes ignored (method extrinsic) then
    _ <~ log (SkippingIgnoreMethod (method extrinsic)) ;;
    ret st
  else
    let parts := split "." (method extrinsic) in
    let module := nth 0 parts EmptyString in
    let txType := nth_error parts 1 in
    upgrade <~ lift (isRuntimeUpgrade txType (args extrinsic)) ;;
    if upgrade then
      _ <~ log SkippingRuntimeUpgrade ;;
      ret st
    else if isType txType "claimAttest" then
      tryCatch (sendUnsigned st module txType (args extrinsic))
               (fun err => throw (FailedSubmitting err))
    else sendSigned st module txType extrinsic.

(** The body of the outer loop, [for (const block of blocks)]. *)
Definition processBlock (st : Loop) (block : Block) : M Loop :=
  _ <~ log (CheckingBlock (number block)) ;;
  st' <~ forOf processExtrinsic st (extrinsics block) ;;
  _ <~ (if wait st' then sleep 6000 else ret tt) ;;
  ret st'.

End Sequencer.

Definition migrate (env : Env) (opts : Options) : M unit :=
  let api := initApi env (wsEndpoint opts) in
  let blocks := sortBlocks (readDb env (dbPath opts)) in
  _ <~ (if ensureComplete opts then lift (checkComplete blocks) else ret tt) ;;
  let mySigner := initializeSigner env (suri opts) in
  _ <~ log (SignerAddress mySigner) ;;
  let sudo := sudoKey api in
  _ <~ (if negb (dry opts) && negb (String.eqb mySigner sudo)
        then throw (NotSudoSigner mySigner sudo)
        else ret tt) ;;
  let startingNonce := accountNonce api mySigner in
  _ <~ forOf (processBlock api (IgnoreMethods env) (dry opts) (trickle opts)
                           mySigner startingNonce)
             {| index := 0%nat; wait := false |} blocks ;;
  ret tt.

(** A run starts from the empty trace. *)
Definition run (env : Env) (opts : Options) : list Event * Result unit :=
  migrate env opts [].

(* ================================================================== *)
(** ** Observations on results and traces *)
(* ================================================================== *)

(** The computation came to an end, with a value or with an exception. *)
Definition returns {A : Type} (r : Result A) : Prop :=
  match r with
  | OutOfFuel => False
  | _ => True
  end.

Definition isSupported (method : string) : bool := includes supported method.

Definition isArgVal (a : Arg) : bool :=
  match a with
  | ArgVal _ => true
  | _ => false
  end.

(** Every call inside [c], at any nesting level, is of a supported method. *)
Fixpoint allSupported (c : Call) : bool :=
  match c with
  | mkCall _ m a =>
      isSupported m &&
      forallb (fun x =>
                 match x with
                 | ArgVal _ => true
                 | ArgCall c' => allSupported c'
                 | ArgCalls cs => forallb allSupported cs
                 end) a
  end.

Definition isSubmission (e : Event) : bool :=
  match e with
  | Send _ | SignAndSend _ _ _ _ _ => true
  | _ => false
  end.

Definition isSleep (e : Event) : bool :=
  match e with
  | Sleep _ => true
  | _ => false
  end.

(** Some submission was made in [tr]. *)
Definition submitted (tr : list Event) : bool := existsb isSubmission tr.

(** The sequencer slept during [tr]. *)
Definition delayed (tr : list Event) : bool := existsb isSleep tr.

(** The [signAndSend] call of [e], if it is one, was given no options. *)
Definition withoutOptions (e : Event) : Prop :=
  match e with
  | SignAndSend _ _ options _ _ => options = None
  | _ => True
  end.


(** The nonces announced by the [Migrating transaction] messages of
    [tr], in order. *)
Fixpoint nonces (tr : list Event) : list Z :=
  match tr with
  | [] => []
  | ConsoleLog (Migrating n _ _ _) :: rest => n :: nonces rest
  | _ :: rest => nonces rest
  end.

(** The nonces that label the signed submissions of [tr], in order. *)
Fixpoint submittedNonces (tr : list Event) : list Z :=
  match tr with
  | [] => []
  | SignAndSend _ _ _ n _ :: rest => n :: submittedNonces rest
  | _ :: rest => submittedNonces rest
  end.


(** The events of [tr] that follow the message [Checking block n], up to
    the next such message: what the sequencer did for block [n]. *)
Fixpoint untilNextBlock (tr : list Event) : list Event :=
  match tr with
  | [] => []
  | ConsoleLog (CheckingBlock _) :: _ => []
  | e :: rest => e :: untilNextBlock rest
  end.

Fixpoint blockEvents (n : Z) (tr : list Event) : list Event :=
  match tr with
  | [] => []
  | ConsoleLog (CheckingBlock m) :: rest =>
      if m =? n then untilNextBlock rest else blockEvents n rest
  | _ :: rest => blockEvents n rest
  end.

(** The transaction takes the signed path of the loop body: it is not
    ignored, not a runtime upgrade and not [claimAttest]. *)
Definition takesSignedPath (ignored : list string) (extrinsic : Extrinsic) : bool :=
  let txType := nth_error (split "." (method extrinsic)) 1 in
  negb (includes ignored (method extrinsic)) &&
  match isRuntimeUpgrade txType (args extrinsic) with
  | Ok false => negb (isType txType "claimAttest")
  | _ => false
  end.


Definition isOk {A : Type} (r : Result A) : bool :=
  match r with
  | Ok _ => true
  | _ => false
  end.

(** The exception of the authorization gate. *)
Definition isGateError (e : Error) : bool :=
  match e with
  | NotSudoSigner _ _ => true
  | _ => false
  end.

(** [r] is not the exception of the authorization gate. *)
Definition neverGate {A : Type} (r : Result A) : Prop :=
  forall e, r = Throw e -> isGateError e = false.


(** [wp m Q]: from any trace, [m] appends some events [evs] and ends
    with a result [r] such that [Q evs r]. *)
Definition wp {A : Type} (m : M A) (Q : list Event -> Result A -> Prop) : Prop :=
  forall tr, exists evs r, m tr = (tr ++ evs, r) /\ Q evs r.

(** The client [api] with another sudo key, and the surroundings [env]
    with such a client. *)
Definition withSudoKey (api : ApiPromise) (key : string) : ApiPromise :=
  {| findMetaCall := findMetaCall api;
     hasSection := hasSection api;
     hasMethod := hasMethod api;
     sudoKey := key;
     accountNonce := accountNonce api;
     rejects := rejects api |}.

Definition envWithSudoKey (env : Env) (key : string) : Env :=
  {| readDb := readDb env;
     initApi := fun endpoint => withSudoKey (initApi env endpoint) key;
     initializeSigner := initializeSigner env;
     IgnoreMethods := IgnoreMethods env |}.

(* ================================================================== *)
(** ** Sample data *)
(* ================================================================== *)

Definition ex_registry (callIndex : JsValue) : option (string * string) :=
  match callIndex with
  | JStr s =>
      if String.eqb s "0x0400" then Some ("balances", "transfer")
      else if String.eqb s "0x1300" then Some ("sudo", "sudo")
      else if String.eqb s "0x1800" then Some ("utility", "batch")
      else if String.eqb s "0x0001" then Some ("system", "remark")
      else None
  | _ => None
  end.

Definition ex_api (sudo : string) : ApiPromise :=
  {| findMetaCall := ex_registry;
     hasSection := fun _ => true;
     hasMethod := fun _ _ => true;
     sudoKey := sudo;
     accountNonce := fun _ => 100;
     rejects := fun _ => None |}.

Definition ex_env (db : list Block) (sudo : string) : Env :=
  {| readDb := fun _ => db;
     initApi := fun _ => ex_api sudo;
     initializeSigner := fun _ => "5Migrator";
     IgnoreMethods := ["timestamp.set"; "parachains.setHeads"] |}.

Definition ex_opts (dry_ ensure trickle_ : bool) : Options :=
  {| dbPath := "kusama.db";
     dry := dry_;
     ensureComplete := ensure;
     trickle := trickle_;
     suri := "//Migrator";
     wsEndpoint := "ws://127.0.0.1:9944" |}.

Definition ex_details (callIndex : string) (a : list (string * JsValue)) : JsValue :=
  JObj [("callIndex", JStr callIndex); ("args", JObj a)].

Definition ex_transfer (dest : string) (value : Z) : JsValue :=
  ex_details "0x0400" [("dest", JStr dest); ("value", JNum value)].

Definition ex_remark : JsValue :=
  ex_details "0x0001" [("_remark", JStr "0x00")].

Definition ex_sudo (inner : JsValue) : JsValue :=
  ex_details "0x1300" [("call", inner)].

Definition ex_batch (inner : list JsValue) : JsValue :=
  ex_details "0x1800" [("calls", JArr inner)].

Definition ex_signed (meth : string) (a : list JsValue) (who : string) : Extrinsic :=
  {| args := a; hash := JStr "0xh"; method := meth;
     signature := JObj [("signer", JStr who)] |}.

Definition ex_unsigned (meth : string) (a : list JsValue) : Extrinsic :=
  {| args := a; hash := JStr "0xh"; method := meth; signature := JNull |}.

Definition ex_block (n : Z) (xs : list Extrinsic) : Block :=
  {| extrinsics := xs; number := n |}.

(** [k] sudo wrappers around [inner]. *)
Fixpoint ex_sudoChain (k : nat) (inner : JsValue) : JsValue :=
  match k with
  | O => inner
  | S k' => ex_sudo (ex_sudoChain k' inner)
  end.

Fixpoint ex_sudoCalls (k : nat) (inner : Call) : Call :=
  match k with
  | O => inner
  | S k' => mkCall "sudo" "sudo" [ArgCall (ex_sudoCalls k' inner)]
  end.

Definition ex_transferTx : Extrinsic :=
  ex_signed "balances.transfer" [JStr "5Bob"; JNum 10] "5Alice".

Definition ex_claimTx : Extrinsic :=
  ex_unsigned "claims.claimAttest" [JStr "5Bob"; JStr "0xsig"].

Definition ex_upgradeTx : Extrinsic :=
  ex_signed "sudo.sudoUncheckedWeight"
            [ex_details "0x0000" [("code", JStr "0x0061736d")]; JNum 0] "5Root".

Definition ex_badBatchTx : Extrinsic :=
  ex_signed "utility.batch" [JArr [ex_transfer "5Bob" 1; ex_remark]] "5Alice".

(* ================================================================== *)
(** ** Results: basic facts *)
(* ================================================================== *)

Lemma returns_Ok {A : Type} (a : A) : returns (Ok a).
Proof. exact I. Qed.

Lemma returns_Throw {A : Type} (e : Error) : returns (@Throw A e).
Proof. exact I. Qed.

#[local] Hint Resolve returns_Ok returns_Throw : core.

Lemma returns_rbind {A B : Type} (r : Result A) (k : A -> Result B) :
  returns r -> (forall a, r = Ok a -> returns (k a)) -> returns (rbind r k).
Proof.
  destruct r as [a | e |]; cbn; intros Hr Hk; auto.
Qed.

Lemma mapM_returns {A B : Type} (f : A -> Result B) (l : list A) :
  (forall x, In x l -> returns (f x)) -> returns (mapM f l).
Proof.
  induction l as [| x xs IH]; cbn; intros H; [exact I |].
  apply returns_rbind; [apply H; now left |].
  intros y _. apply returns_rbind; [apply IH; intros; apply H; now right |].
  intros; exact I.
Qed.

Lemma mapM_ext_in {A B : Type} (f g : A -> Result B) (l : list A) :
  (forall x, In x l -> f x = g x) -> mapM f l = mapM g l.
Proof.
  induction l as [| x xs IH]; cbn; intros H; [reflexivity |].
  rewrite (H x) by now left.
  rewrite IH by (intros; apply H; now right). reflexivity.
Qed.

(** [mapM] succeeds exactly when every element does, and then lists the
    results in the order of the elements. *)
Lemma mapM_Forall2 {A B : Type} (f : A -> Result B) (l : list A) (rs : list B) :
  mapM f l = Ok rs <-> Forall2 (fun x y => f x = Ok y) l rs.
Proof.
  revert rs; induction l as [| x xs IH]; intros rs; cbn.
  - split.
    + intros H; injection H as <-; constructor.
    + intros H; inversion H; reflexivity.
  - split.
    + destruct (f x) as [y | e |] eqn:Hx; cbn; try discriminate.
      destruct (mapM f xs) as [ys | e |] eqn:Hxs; cbn; try discriminate.
      intros H; injection H as <-. constructor; [exact Hx | now apply IH].
    + intros H; inversion H as [| x' y l' ys Hx Hrest]; subst.
      rewrite Hx; cbn. apply IH in Hrest. rewrite Hrest. reflexivity.
Qed.

(* ================================================================== *)
(** ** Property reads and nesting depth *)
(* ================================================================== *)

Lemma get_returns (v : JsValue) (name : string) : returns (get v name).
Proof.
  destruct v; cbn; auto.
  - destruct (String.eqb name "keys"); exact I.
  - destruct (assoc name props); exact I.
Qed.

(** A read that succeeds under one name succeeds under any name: only
    [undefined] and [null] make a read throw. *)
Lemma get_Ok_any (v x : JsValue) (a b : string) :
  get v a = Ok x -> exists y, get v b = Ok y.
Proof.
  destruct v; cbn; try discriminate; intros _; eauto.
  - destruct (String.eqb b "keys"); eauto.
  - destruct (assoc b props); eauto.
Qed.

Lemma assoc_depth (name : string) (props : list (string * JsValue)) (x : JsValue) :
  assoc name props = Some x ->
  (depth x <= list_max (map (fun p => depth (snd p)) props))%nat.
Proof.
  induction props as [| [k v] rest IH]; cbn [assoc map snd]; [discriminate |].
  change (list_max (depth v :: ?l)) with (Nat.max (depth v) (list_max l)).
  destruct (String.eqb k name).
  - intros H; injection H as <-. lia.
  - intros H. specialize (IH H). lia.
Qed.

Lemma elem_depth (elems : list JsValue) (x : JsValue) :
  In x elems -> (depth x < depth (JArr elems))%nat.
Proof.
  intros Hin. cbn [depth].
  assert (H : (depth x <= list_max (map depth elems))%nat).
  { induction elems as [| y ys IH]; [contradiction |].
    cbn [map].
    change (list_max (depth y :: ?l)) with (Nat.max (depth y) (list_max l)).
    destruct Hin as [-> | Hin]; [lia |]. specialize (IH Hin). lia. }
  lia.
Qed.

Lemma get_depth (v x : JsValue) (name : string) :
  get v name = Ok x -> (depth x <= Nat.pred (depth v))%nat.
Proof.
  destruct v; cbn; try discriminate;
    try (intros H; injection H as <-; cbn; lia).
  - destruct (String.eqb name "keys"); intros H; injection H as <-; cbn; lia.
  - destruct (assoc name props) eqn:Ha; intros H; injection H as <-.
    + now apply assoc_depth with (name := name).
    + cbn; lia.
Qed.

(** Two reads in a row reach strictly below the value they start from:
    this is what every nested activation of the resolver does. *)
Lemma get_get_depth (d x y : JsValue) (a b : string) :
  get d a = Ok x -> get x b = Ok y -> (depth y < depth d)%nat.
Proof.
  intros Hx Hy.
  pose proof (get_depth _ _ _ Hx) as H1.
  pose proof (get_depth _ _ _ Hy) as H2.
  destruct d; cbn in Hx; try discriminate;
    try (injection Hx as <-; cbn in Hy; discriminate).
  - cbn [depth] in *. lia.
  - cbn [depth] in *. lia.
Qed.

(* ================================================================== *)
(** ** The resolver terminates *)
(* ================================================================== *)

Lemma fields_returns (args : JsValue) (names : list string) :
  returns (fields args names).
Proof.
  apply mapM_returns. intros name _.
  apply returns_rbind; [apply get_returns | intros; exact I].
Qed.

Lemma tx_returns (api : ApiPromise) (section : string) (method : option string)
  (a : Result (list Arg)) :
  returns a -> returns (tx api section method a).
Proof.
  intros Ha. unfold tx, callee, invoke.
  destruct (hasSection api section); cbn; [| exact I].
  destruct a; cbn; auto.
  destruct (match method with Some m => hasMethod api section m | None => false end);
    exact I.
Qed.

Lemma arrayMap_returns {B : Type} (v : JsValue) (f : JsValue -> Result B) :
  (forall elems x, v = JArr elems -> In x elems -> returns (f x)) ->
  returns (arrayMap v f).
Proof.
  intros H. destruct v; cbn; auto.
  apply mapM_returns. intros x Hx. now apply (H elems).
Qed.

Ltac rule_case :=
  match goal with
  | |- returns (if ?b then _ else _) =>
      destruct b; [apply tx_returns, fields_returns |]
  end.

(** With more fuel than the descriptor is deep, [createCall] comes to an
    end. *)
Lemma createCall_returns (api : ApiPromise) (n : nat) :
  forall details, (depth details < n)%nat -> returns (createCall api n details).
Proof.
  induction n as [| n IH]; intros details Hd; [lia |].
  cbn [createCall].
  apply returns_rbind; [apply get_returns | intros args Hargs].
  apply returns_rbind; [apply get_returns | intros callIndex _].
  destruct (findMetaCall api callIndex) as [[section method] |]; [| exact I].
  do 9 rule_case.
  assert (Hnested : forall name nested,
             get args name = Ok nested -> (depth nested < n)%nat).
  { intros name nested Hn.
    pose proof (get_get_depth _ _ _ _ _ Hargs Hn). lia. }
  destruct (String.eqb method "proxy").
  { apply returns_rbind; [apply get_returns | intros nested Hn].
    apply returns_rbind; [apply IH; eauto |]. intros call _.
    apply tx_returns.
    apply returns_rbind; [apply fields_returns | intros; exact I]. }
  destruct (String.eqb method "sudo").
  { apply tx_returns.
    apply returns_rbind; [apply get_returns | intros nested Hn].
    apply returns_rbind; [apply IH; eauto | intros; exact I]. }
  destruct (String.eqb method "batch").
  { apply returns_rbind; [apply get_returns | intros nested Hn].
    apply returns_rbind; [| intros; apply tx_returns; exact I].
    apply arrayMap_returns. intros elems x -> Hx.
    apply IH. pose proof (elem_depth _ _ Hx). specialize (Hnested _ _ Hn). lia. }
  rule_case. exact I.
Qed.

Ltac same_rule :=
  match goal with
  | |- (if ?b then _ else _) = (if ?b then _ else _) =>
      destruct b; [reflexivity |]
  end.

(** The result does not depend on how much fuel there is beyond the
    depth of the descriptor. *)
Lemma createCall_stable (api : ApiPromise) (n : nat) :
  forall m details,
    (depth details < n)%nat -> (depth details < m)%nat ->
    createCall api n details = createCall api m details.
Proof.
  induction n as [| n IH]; intros m details Hn Hm; [lia |].
  destruct m as [| m]; [lia |].
  cbn [createCall].
  destruct (get details "args") as [args | e |] eqn:Hargs; cbn [rbind]; try reflexivity.
  destruct (get details "callIndex") as [callIndex | e |]; cbn [rbind]; try reflexivity.
  destruct (findMetaCall api callIndex) as [[section method] |]; [| reflexivity].
  do 9 same_rule.
  assert (Hnested : forall name nested,
             get args name = Ok nested ->
             createCall api n nested = createCall api m nested).
  { intros name nested Hx.
    pose proof (get_get_depth _ _ _ _ _ Hargs Hx). apply IH; lia. }
  destruct (String.eqb method "proxy").
  { destruct (get args "call") as [nested | e |] eqn:Hx; cbn [rbind]; try reflexivity.
    now rewrite (Hnested _ _ Hx). }
  destruct (String.eqb method "sudo").
  { destruct (get args "call") as [nested | e |] eqn:Hx; cbn [rbind]; try reflexivity.
    now rewrite (Hnested _ _ Hx). }
  destruct (String.eqb method "batch").
  { destruct (get args "calls") as [nested | e |] eqn:Hx; cbn [rbind]; try reflexivity.
    destruct nested; cbn [arrayMap]; try reflexivity.
    rewrite (mapM_ext_in (createCall api n) (createCall api m)); [reflexivity |].
    intros x Hin. pose proof (elem_depth _ _ Hin).
    pose proof (get_get_depth _ _ _ _ _ Hargs Hx). apply IH; lia. }
  reflexivity.
Qed.

Lemma createCall_resolve (api : ApiPromise) (fuel : nat) (details : JsValue) :
  (depth details < fuel)%nat -> createCall api fuel details = resolve api details.
Proof.
  intros H. unfold resolve, fuelFor. apply createCall_stable; lia.
Qed.

(* ================================================================== *)
(** ** What the resolver builds *)
(* ================================================================== *)

Lemma tx_Ok (api : ApiPromise) (section method : string)
  (a : Result (list Arg)) (c : Call) :
  tx api section (Some method) a = Ok c ->
  exists l, a = Ok l /\ c = mkCall section method l.
Proof.
  unfold tx, callee, invoke.
  destruct (hasSection api section); cbn; [| discriminate].
  destruct a as [l | e |]; cbn; try discriminate.
  destruct (hasMethod api section method); [| discriminate].
  intros H; injection H as <-. eauto.
Qed.

Lemma tx_available (api : ApiPromise) (section method : string) (l : list Arg) :
  hasSection api section = true ->
  hasMethod api section method = true ->
  tx api section (Some method) (Ok l) = Ok (mkCall section method l).
Proof.
  intros Hs Hm. unfold tx, callee, invoke. rewrite Hs; cbn. rewrite Hm.
  reflexivity.
Qed.

Lemma fields_ArgVal (args : JsValue) (names : list string) (l : list Arg) :
  fields args names = Ok l -> forallb isArgVal l = true.
Proof.
  unfold fields. revert l.
  induction names as [| name names IH]; cbn; intros l H.
  - injection H as <-. reflexivity.
  - destruct (get args name); cbn in H; try discriminate.
    destruct (mapM _ names) as [ys | e |]; cbn in H; try discriminate.
    injection H as <-. cbn. now apply IH.
Qed.

Lemma allSupported_vals (section method : string) (l : list Arg) :
  isSupported method = true ->
  forallb isArgVal l = true ->
  allSupported (mkCall section method l) = true.
Proof.
  intros Hm Hl. cbn [allSupported]. rewrite Hm. cbn.
  induction l as [| a l IH]; cbn in *; [reflexivity |].
  apply andb_prop in Hl as [Ha Hl]. destruct a; try discriminate.
  cbn. now apply IH.
Qed.

Lemma allSupported_front (section method : string) (front : list Arg) (c : Call) :
  isSupported method = true ->
  forallb isArgVal front = true ->
  allSupported c = true ->
  allSupported (mkCall section method (front ++ [ArgCall c])) = true.
Proof.
  intros Hm Hl Hc. cbn [allSupported]. rewrite Hm. cbn [andb].
  induction front as [| a l IH]; cbn in *.
  - now rewrite Hc.
  - apply andb_prop in Hl as [Ha Hl]. destruct a; try discriminate.
    cbn. now apply IH.
Qed.

Ltac built_by_rule :=
  match goal with
  | |- (if String.eqb ?m ?c then _ else _) = Ok _ -> _ =>
      let E := fresh "E" in
      destruct (String.eqb m c) eqn:E;
      [ apply String.eqb_eq in E; subst m;
        let H := fresh "H" in
        let l := fresh "l" in
        let Hl := fresh "Hl" in
        intros H; apply tx_Ok in H as (l & Hl & ->);
        split; [apply allSupported_vals;
                [reflexivity | now apply fields_ArgVal in Hl]
               | reflexivity]
      | ]
  end.

(** Whatever [createCall] returns was built by one of its rules, at
    every nesting level, for the name the registry gave. *)
Lemma createCall_Ok_supported (api : ApiPromise) (fuel : nat) :
  forall details c,
    createCall api fuel details = Ok c ->
    allSupported c = true /\
    resolvedName api details = Some (call_section c, call_method c).
Proof.
  induction fuel as [| n IH]; intros details c; [discriminate |].
  cbn [createCall]. unfold resolvedName.
  destruct (get details "args") as [args | e |]; cbn [rbind]; try discriminate.
  destruct (get details "callIndex") as [callIndex | e |]; cbn [rbind];
    try discriminate.
  destruct (findMetaCall api callIndex) as [[section method] |];
    [| discriminate].
  do 9 built_by_rule.
  destruct (String.eqb method "proxy") eqn:Eproxy.
  { apply String.eqb_eq in Eproxy; subst method.
    destruct (get args "call") as [nested | e |]; cbn [rbind]; try discriminate.
    destruct (createCall api n nested) as [call | e |] eqn:Hc; cbn [rbind];
      try discriminate.
    intros H; apply tx_Ok in H as (l & Hl & ->).
    destruct (fields args ["real"; "force_proxy_type"]) as [front | e |] eqn:Hf;
      cbn [rbind] in Hl; try discriminate.
    injection Hl as <-. split; [| reflexivity].
    apply allSupported_front;
      [reflexivity | now apply fields_ArgVal in Hf | now apply IH in Hc]. }
  destruct (String.eqb method "sudo") eqn:Esudo.
  { apply String.eqb_eq in Esudo; subst method.
    intros H; apply tx_Ok in H as (l & Hl & ->).
    destruct (get args "call") as [nested | e |]; cbn [rbind] in Hl;
      try discriminate.
    destruct (createCall api n nested) as [call | e |] eqn:Hc; cbn [rbind] in Hl;
      try discriminate.
    injection Hl as <-. split; [| reflexivity].
    apply (allSupported_front _ _ []); [reflexivity | reflexivity |].
    now apply IH in Hc. }
  destruct (String.eqb method "batch") eqn:Ebatch.
  { apply String.eqb_eq in Ebatch; subst method.
    destruct (get args "calls") as [nested | e |]; cbn [rbind]; try discriminate.
    destruct (arrayMap nested (createCall api n)) as [calls | e |] eqn:Hc;
      cbn [rbind]; try discriminate.
    intros H; apply tx_Ok in H as (l & Hl & ->).
    injection Hl as <-. split; [| reflexivity].
    cbn [allSupported forallb]. rewrite andb_true_r.
    change (isSupported "batch") with true. cbn [andb].
    destruct nested; cbn [arrayMap] in Hc; try discriminate.
    apply mapM_Forall2 in Hc.
    induction Hc as [| d c' ds cs Hd _ IHcs]; cbn; [reflexivity |].
    apply IH in Hd as [-> _]. exact IHcs. }
  built_by_rule.
  discriminate.
Qed.

(** The resolver on [k] nested sudo wrappers: [k] units of fuel never
    suffice, whatever is wrapped, *)
Lemma sudoChain_needs_fuel (sudo : string) (k : nat) (leaf : JsValue) :
  createCall (ex_api sudo) k (ex_sudoChain k leaf) = OutOfFuel.
Proof.
  induction k as [| k IH]; [reflexivity |].
  cbn [ex_sudoChain createCall]. unfold ex_sudo, ex_details. cbn.
  fold (ex_sudoChain k leaf). unfold tx. cbn. rewrite IH. reflexivity.
Qed.

(** and they are resolved, however many they are, as soon as what they
    wrap is. *)
Lemma sudoChain_resolves (sudo : string) (k : nat) (leaf : JsValue) (c : Call) :
  resolve (ex_api sudo) leaf = Ok c ->
  resolve (ex_api sudo) (ex_sudoChain k leaf) = Ok (ex_sudoCalls k c).
Proof.
  intros Hleaf. induction k as [| k IH]; [exact Hleaf |].
  cbn [ex_sudoChain ex_sudoCalls].
  set (inner := ex_sudoChain k leaf) in *.
  assert (Hd : (depth inner < depth (ex_sudo inner))%nat).
  { apply (get_get_depth (ex_sudo inner) (JObj [("call", inner)]) inner "args" "call");
      reflexivity. }
  unfold resolve at 1, fuelFor.
  set (n := depth (ex_sudo inner)) in *. clearbody n.
  cbn [createCall]. unfold ex_sudo, ex_details. cbn. unfold tx. cbn.
  rewrite (createCall_resolve _ _ _ Hd), IH. reflexivity.
Qed.

(* ================================================================== *)
(** ** The resolver: main results *)
(* ================================================================== *)

(** C7.  A descriptor whose method, as the registry resolves it, is not
    one of the methods the resolver has a rule for makes [createCall]
    throw the "method missing" error, whatever the arguments and
    whatever constructors the client offers: no call is built.  And a
    call that [createCall] does return was built, at every nesting
    level, for a supported method, under the name the registry gave. *)
Theorem createCall_unknown_method_is_fatal
  (api : ApiPromise) (details : JsValue) (fuel : nat) :
  (forall section method,
      resolvedName api details = Some (section, method) ->
      isSupported method = false ->
      createCall api (S fuel) details = Throw (MethodMissing section method))
  /\
  (forall c,
      createCall api fuel details = Ok c ->
      allSupported c = true /\
      resolvedName api details = Some (call_section c, call_method c)).
Proof.
  split; [| apply createCall_Ok_supported].
  intros section method Hname Hs. unfold resolvedName in Hname.
  destruct (get details "callIndex") as [callIndex | e |] eqn:Hci;
    try discriminate.
  destruct (get_Ok_any _ _ _ "args" Hci) as [args Hargs].
  cbn [createCall]. rewrite Hargs, Hci. cbn [rbind]. rewrite Hname.
  unfold isSupported, includes, supported in Hs. cbn [existsb] in Hs.
  repeat (apply orb_false_elim in Hs as [? Hs]).
  repeat match goal with
         | H : String.eqb method _ = false |- _ => rewrite H; clear H
         end.
  reflexivity.
Qed.

Lemma createCall_unknown_method_is_fatal_witness :
  createCall (ex_api "5Sudo") 1 ex_remark
    = Throw (MethodMissing "system" "remark")
  /\ (allSupported (mkCall "balances" "transfer"
                           [ArgVal (JStr "5Bob"); ArgVal (JNum 10)]) = true
      /\ resolvedName (ex_api "5Sudo") (ex_transfer "5Bob" 10)
           = Some ("balances", "transfer")).
Proof.
  split.
  - apply (proj1 (createCall_unknown_method_is_fatal
                    (ex_api "5Sudo") ex_remark 0)); reflexivity.
  - apply (proj2 (createCall_unknown_method_is_fatal
                    (ex_api "5Sudo") (ex_transfer "5Bob" 10) 1)
                 (mkCall "balances" "transfer"
                         [ArgVal (JStr "5Bob"); ArgVal (JNum 10)])).
    reflexivity.
Defined.

(** C8.  A batch descriptor whose [calls] array holds the descriptors
    [ds], each of which resolves, resolves to one batch call whose single
    argument is the array of the resolutions of [ds], in the order of
    [ds]. *)
Theorem createCall_batch_in_order
  (api : ApiPromise) (details args callIndex : JsValue) (section : string)
  (ds : list JsValue) (cs : list Call) :
  get details "args" = Ok args ->
  get details "callIndex" = Ok callIndex ->
  findMetaCall api callIndex = Some (section, "batch") ->
  get args "calls" = Ok (JArr ds) ->
  hasSection api section = true ->
  hasMethod api section "batch" = true ->
  Forall2 (fun d c => resolve api d = Ok c) ds cs ->
  resolve api details = Ok (mkCall section "batch" [ArgCalls cs]).
Proof.
  intros Hargs Hci Hname Hcalls Hs Hm Hall.
  pose proof (get_get_depth _ _ _ _ _ Hargs Hcalls) as Hd.
  unfold resolve at 1, fuelFor.
  set (n := depth details) in *. clearbody n.
  cbn [createCall]. rewrite Hargs, Hci. cbn [rbind]. rewrite Hname.
  cbn. rewrite Hcalls. cbn [rbind arrayMap].
  rewrite (mapM_ext_in (createCall api n) (resolve api)).
  - apply mapM_Forall2 in Hall. rewrite Hall. cbn [rbind].
    now apply tx_available.
  - intros d Hin. apply createCall_resolve.
    pose proof (elem_depth _ _ Hin). lia.
Qed.

Lemma createCall_batch_in_order_witness :
  resolve (ex_api "5Sudo")
          (ex_batch [ex_transfer "5Bob" 1;
                     ex_sudo (ex_transfer "5Carol" 2);
                     ex_transfer "5Dave" 3])
  = Ok (mkCall "utility" "batch"
          [ArgCalls
             [mkCall "balances" "transfer" [ArgVal (JStr "5Bob"); ArgVal (JNum 1)];
              mkCall "sudo" "sudo"
                [ArgCall (mkCall "balances" "transfer"
                            [ArgVal (JStr "5Carol"); ArgVal (JNum 2)])];
              mkCall "balances" "transfer" [ArgVal (JStr "5Dave"); ArgVal (JNum 3)]]]).
Proof.
  apply (createCall_batch_in_order (ex_api "5Sudo")
           (ex_batch [ex_transfer "5Bob" 1;
                      ex_sudo (ex_transfer "5Carol" 2);
                      ex_transfer "5Dave" 3])
           (JObj [("calls", JArr [ex_transfer "5Bob" 1;
                                  ex_sudo (ex_transfer "5Carol" 2);
                                  ex_transfer "5Dave" 3])])
           (JStr "0x1800") "utility"
           [ex_transfer "5Bob" 1; ex_sudo (ex_transfer "5Carol" 2);
            ex_transfer "5Dave" 3]);
    try reflexivity.
  repeat (constructor; [reflexivity |]). constructor.
Defined.

(** C10.  [createCall] comes to an end, with a call or an exception, on
    every descriptor: the nested activations follow the nesting of the
    descriptor, so that any fuel above its depth is enough and gives one
    and the same result.  Nothing else bounds the recursion: [k] nested
    sudo wrappers take more than [k] activations whatever they wrap, and
    are resolved at any depth [k] as soon as the innermost descriptor
    is. *)
Theorem createCall_terminates :
  (forall api details fuel,
      (depth details < fuel)%nat ->
      returns (createCall api fuel details) /\
      createCall api fuel details = resolve api details)
  /\
  (forall sudo k leaf,
      createCall (ex_api sudo) k (ex_sudoChain k leaf) = OutOfFuel /\
      (forall c, resolve (ex_api sudo) leaf = Ok c ->
                 resolve (ex_api sudo) (ex_sudoChain k leaf)
                   = Ok (ex_sudoCalls k c))).
Proof.
  split.
  - intros api details fuel H. split.
    + now apply createCall_returns.
    + now apply createCall_resolve.
  - intros sudo k leaf. split.
    + apply sudoChain_needs_fuel.
    + apply sudoChain_resolves.
Qed.

Lemma createCall_terminates_witness :
  (returns (createCall (ex_api "5Sudo") 7
                       (ex_sudoChain 2 (ex_transfer "5Bob" 1)))
   /\ createCall (ex_api "5Sudo") 7 (ex_sudoChain 2 (ex_transfer "5Bob" 1))
      = resolve (ex_api "5Sudo") (ex_sudoChain 2 (ex_transfer "5Bob" 1)))
  /\ resolve (ex_api "5Sudo") (ex_sudoChain 3 (ex_transfer "5Bob" 1))
     = Ok (ex_sudoCalls 3 (mkCall "balances" "transfer"
                                  [ArgVal (JStr "5Bob"); ArgVal (JNum 1)])).
Proof.
  split.
  - apply (proj1 createCall_terminates
                 (ex_api "5Sudo") (ex_sudoChain 2 (ex_transfer "5Bob" 1)) 7%nat).
    vm_compute. lia.
  - apply (proj2 createCall_terminates "5Sudo" 3%nat (ex_transfer "5Bob" 1)).
    reflexivity.
Defined.

(* ================================================================== *)
(** ** The completeness check *)
(* ================================================================== *)

(** The log is processed in ascending order of block number, whatever
    the order of the file: [sortBlocks] rearranges its argument into a
    sorted list. *)
Lemma insertBlock_perm (b : Block) (sorted : list Block) :
  Permutation (b :: sorted) (insertBlock b sorted).
Proof.
  induction sorted as [| x xs IH]; cbn; [reflexivity |].
  destruct (number b <=? number x); [reflexivity |].
  rewrite perm_swap. now constructor.
Qed.

Lemma insertBlock_sorted (b : Block) (sorted : list Block) :
  Sorted (fun x y => number x <= number y) sorted ->
  Sorted (fun x y => number x <= number y) (insertBlock b sorted).
Proof.
  induction sorted as [| x xs IH]; cbn; intros Hs.
  - repeat constructor.
  - destruct (Z.leb_spec (number b) (number x)) as [Hle | Hgt].
    + constructor; [exact Hs | constructor; exact Hle].
    + inversion Hs as [| ? ? Hxs Hhd]; subst.
      constructor; [now apply IH |].
      destruct xs as [| y ys]; cbn.
      * constructor. lia.
      * destruct (number b <=? number y); constructor; [lia |].
        now inversion Hhd.
Qed.

Lemma sortBlocks_ascending (blocks : list Block) :
  Sorted (fun x y => number x <= number y) (sortBlocks blocks) /\
  Permutation blocks (sortBlocks blocks).
Proof.
  induction blocks as [| b bs [IHs IHp]]; cbn.
  - split; constructor.
  - split; [now apply insertBlock_sorted |].
    rewrite <- insertBlock_perm. now constructor.
Qed.

Lemma blockAt_Ok (blocks : list Block) (i : nat) :
  (i < List.length blocks)%nat ->
  exists b, nth_error blocks i = Some b /\ blockAt blocks i = Ok b.
Proof.
  intros H. unfold blockAt.
  destruct (nth_error blocks i) as [b |] eqn:E; [eauto |].
  apply nth_error_None in E. lia.
Qed.

(** The loop entered at [count] succeeds exactly when every position
    from [count] up to, but not including, the length of the list holds
    the block of that number. *)
Lemma completeLoop_Ok (blocks : list Block) (fuel : nat) :
  forall count,
    (1 <= count)%nat ->
    (List.length blocks <= fuel + count)%nat ->
    (completeLoop fuel blocks count = Ok tt <->
     forall i b, (count <= S i)%nat -> (S i < List.length blocks)%nat ->
                 nth_error blocks i = Some b -> number b = Z.of_nat (S i)).
Proof.
  induction fuel as [| fuel IH]; intros count Hc Hlen.
  - cbn [completeLoop].
    destruct (Nat.ltb_spec count (List.length blocks)); [lia |].
    split; [intros _ i b ? ?; lia | reflexivity].
  - cbn [completeLoop].
    destruct (Nat.ltb_spec count (List.length blocks)) as [Hlt | Hge].
    + destruct (blockAt_Ok blocks (count - 1)) as (checked & Hnth & ->); [lia |].
      cbn [rbind].
      destruct (Z.eqb_spec (number checked) (Z.of_nat count)) as [Heq | Hne];
        cbn [negb].
      * rewrite IH by lia. split; intros H i b Hi Hi' Hb.
        -- destruct (Nat.eq_dec (S i) count) as [E | E].
           ++ replace (count - 1)%nat with i in Hnth by lia.
              rewrite Hnth in Hb. injection Hb as <-. now rewrite E.
           ++ apply H; auto; lia.
        -- apply H; auto; lia.
      * destruct (blockAt_Ok blocks count) as (got & _ & ->); [lia |].
        cbn [rbind]. split; [discriminate |].
        intros H. exfalso. apply Hne.
        specialize (H (count - 1)%nat checked).
        replace (S (count - 1)) with count in H by lia.
        apply H; auto; lia.
    + split; [intros _ i b ? ?; lia | reflexivity].
Qed.

(** When the loop throws, it cites the first position, below the length
    of the list, whose block has another number. *)
Lemma completeLoop_Throw (blocks : list Block) (fuel : nat) :
  forall count e,
    (1 <= count)%nat ->
    completeLoop fuel blocks count = Throw e ->
    exists i b got,
      (count <= S i)%nat /\ (S i < List.length blocks)%nat /\
      nth_error blocks i = Some b /\ number b <> Z.of_nat (S i) /\
      nth_error blocks (S i) = Some got /\
      e = MissingBlock (Z.of_nat (S i)) (number got) /\
      (forall j c, (count <= S j)%nat -> (j < i)%nat ->
                   nth_error blocks j = Some c -> number c = Z.of_nat (S j)).
Proof.
  induction fuel as [| fuel IH]; intros count e Hc.
  - cbn [completeLoop]. destruct (count <? List.length blocks)%nat; discriminate.
  - cbn [completeLoop].
    destruct (Nat.ltb_spec count (List.length blocks)) as [Hlt | Hge];
      [| discriminate].
    destruct (blockAt_Ok blocks (count - 1)) as (checked & Hnth & ->); [lia |].
    cbn [rbind].
    destruct (Z.eqb_spec (number checked) (Z.of_nat count)) as [Heq | Hne];
      cbn [negb].
    + intros H. apply IH in H as (i & b & got & H1 & H2 & H3 & H4 & H5 & H6 & H7);
        [| lia].
      exists i, b, got. repeat split; auto; try lia.
      intros j c Hj Hji Hjc.
      destruct (Nat.eq_dec (S j) count) as [E | E].
      * replace (count - 1)%nat with j in Hnth by lia.
        rewrite Hnth in Hjc. injection Hjc as <-. now rewrite E.
      * apply H7; auto; lia.
    + destruct (blockAt_Ok blocks count) as (got & Hgot & ->); [lia |].
      cbn [rbind]. intros H; injection H as <-.
      exists (count - 1)%nat, checked, got.
      replace (S (count - 1)) with count by lia.
      repeat split; auto; try lia.
Qed.

Lemma completeLoop_returns (blocks : list Block) (fuel : nat) :
  forall count,
    (1 <= count)%nat ->
    (List.length blocks <= fuel + count)%nat ->
    returns (completeLoop fuel blocks count).
Proof.
  induction fuel as [| fuel IH]; intros count Hc Hlen.
  - cbn [completeLoop].
    destruct (Nat.ltb_spec count (List.length blocks)); [lia | exact I].
  - cbn [completeLoop].
    destruct (Nat.ltb_spec count (List.length blocks)) as [Hlt | Hge];
      [| exact I].
    destruct (blockAt_Ok blocks (count - 1)) as (checked & _ & ->); [lia |].
    cbn [rbind]. destruct (negb _).
    + destruct (blockAt_Ok blocks count) as (got & _ & ->); [lia |]. exact I.
    + apply IH; lia.
Qed.

Lemma checkComplete_returns (blocks : list Block) :
  returns (checkComplete blocks).
Proof. apply completeLoop_returns; lia. Qed.

(** The check passes exactly when every block but the last one sits at
    the position of its number. *)
Lemma checkComplete_Ok (blocks : list Block) :
  checkComplete blocks = Ok tt <->
  forall i b, (S i < List.length blocks)%nat ->
              nth_error blocks i = Some b -> number b = Z.of_nat (S i).
Proof.
  unfold checkComplete. rewrite completeLoop_Ok by lia.
  split; intros H i b; [intros; apply H; auto; lia | intros _; apply H].
Qed.

(* ================================================================== *)
(** ** Reasoning about the sequencer's computations *)
(* ================================================================== *)

Lemma wp_conseq {A : Type} (m : M A) (Q Q' : list Event -> Result A -> Prop) :
  wp m Q -> (forall evs r, Q evs r -> Q' evs r) -> wp m Q'.
Proof.
  intros H HQ tr. destruct (H tr) as (evs & r & E & Hq). eauto.
Qed.

Lemma wp_ret {A : Type} (a : A) (Q : list Event -> Result A -> Prop) :
  Q [] (Ok a) -> wp (ret a) Q.
Proof. intros H tr. exists [], (Ok a). now rewrite app_nil_r. Qed.

Lemma wp_throw {A : Type} (e : Error) (Q : list Event -> Result A -> Prop) :
  Q [] (Throw e) -> wp (throw e) Q.
Proof. intros H tr. exists [], (Throw e). now rewrite app_nil_r. Qed.

Lemma wp_lift {A : Type} (r : Result A) (Q : list Event -> Result A -> Prop) :
  Q [] r -> wp (lift r) Q.
Proof. intros H tr. exists [], r. now rewrite app_nil_r. Qed.

Lemma wp_emit (e : Event) (Q : list Event -> Result unit -> Prop) :
  Q [e] (Ok tt) -> wp (emit e) Q.
Proof. intros H tr. exists [e], (Ok tt). auto. Qed.

Lemma wp_submit (api : ApiPromise) (e : Event)
  (Q : list Event -> Result unit -> Prop) :
  Q [e] (Ok tt) ->
  (forall reason, Q [e] (Throw (Rejected reason))) ->
  wp (submit api e) Q.
Proof.
  intros Hok Hrej tr. unfold submit.
  destruct (rejects api (tr ++ [e])) as [reason |]; eauto.
Qed.

Lemma wp_bind {A B : Type} (m : M A) (k : A -> M B)
  (Q : list Event -> Result B -> Prop) :
  wp m (fun evs r =>
          match r with
          | Ok a => wp (k a) (fun evs' r' => Q (evs ++ evs') r')
          | Throw e => Q evs (Throw e)
          | OutOfFuel => Q evs OutOfFuel
          end) ->
  wp (bind m k) Q.
Proof.
  intros H tr. unfold bind. destruct (H tr) as (evs & r & -> & Hr).
  destruct r as [a | e |]; eauto.
  destruct (Hr (tr ++ evs)) as (evs' & r' & -> & Hq).
  exists (evs ++ evs'), r'. now rewrite app_assoc.
Qed.

Lemma wp_tryCatch {A : Type} (body : M A) (handler : Error -> M A)
  (Q : list Event -> Result A -> Prop) :
  wp body (fun evs r =>
             match r with
             | Throw e => wp (handler e) (fun evs' r' => Q (evs ++ evs') r')
             | other => Q evs other
             end) ->
  wp (tryCatch body handler) Q.
Proof.
  intros H tr. unfold tryCatch. destruct (H tr) as (evs & r & -> & Hr).
  destruct r as [a | e |]; eauto.
  destruct (Hr (tr ++ evs)) as (evs' & r' & -> & Hq).
  exists (evs ++ evs'), r'. now rewrite app_assoc.
Qed.

(** A pure computation followed by its continuation. *)
Lemma wp_bind_lift {A B : Type} (r : Result A) (k : A -> M B)
  (Q : list Event -> Result B -> Prop) :
  match r with
  | Ok a => wp (k a) Q
  | Throw e => Q [] (Throw e)
  | OutOfFuel => Q [] OutOfFuel
  end ->
  wp (bind (lift r) k) Q.
Proof.
  intros H. apply wp_bind, wp_lift. destruct r; auto.
Qed.

(** What [wp] says of a particular run. *)
Lemma wp_run {A : Type} (m : M A) (Q : list Event -> Result A -> Prop)
  (tr : list Event) :
  wp m Q -> exists evs, fst (m tr) = tr ++ evs /\ Q evs (snd (m tr)).
Proof.
  intros H. destruct (H tr) as (evs & r & -> & Hq). exists evs. now cbn.
Qed.

(** The loop, for a property of the appended events that is kept by
    concatenation. *)
Lemma wp_forOf_events {A S : Type} (body : S -> A -> M S)
  (P : list Event -> Prop) :
  P [] ->
  (forall a b, P a -> P b -> P (a ++ b)) ->
  (forall st x, wp (body st x) (fun evs _ => P evs)) ->
  forall l st, wp (forOf body st l) (fun evs _ => P evs).
Proof.
  intros Hnil Happ Hbody l.
  induction l as [| x xs IH]; intros st; cbn [forOf].
  - now apply wp_ret.
  - apply wp_bind. eapply wp_conseq; [apply Hbody |].
    intros evs [st' | e |] Hevs; cbn; auto.
    eapply wp_conseq; [apply IH |]. cbn. auto.
Qed.

Ltac wp_step :=
  first
    [ apply wp_ret
    | apply wp_throw
    | apply wp_emit
    | apply wp_submit; [| intros ?]
    | apply wp_bind_lift
    | apply wp_lift
    | apply wp_tryCatch
    | apply wp_bind ].

Lemma submitted_app (a b : list Event) :
  submitted (a ++ b) = submitted a || submitted b.
Proof. apply existsb_app. Qed.

Lemma delayed_app (a b : list Event) :
  delayed (a ++ b) = delayed a || delayed b.
Proof. apply existsb_app. Qed.




Ltac wp_go :=
  repeat (lazy beta iota zeta;
          match goal with
          | |- wp (if ?b then _ else _) _ => destruct b eqn:?
          | |- wp (match ?r with _ => _ end) _ => destruct r eqn:?
          | |- wp _ _ => wp_step
          | |- match ?r with _ => _ end => destruct r eqn:?
          end).



Section Steps.

Variable api : ApiPromise.
Variable ignored : list string.
Variables dry_ trickle_ : bool.
Variable mySigner : string.
Variable startingNonce : Z.

Local Abbreviation step :=
  (processExtrinsic api ignored dry_ trickle_ mySigner startingNonce).
Local Abbreviation blockStep :=
  (processBlock api ignored dry_ trickle_ mySigner startingNonce).

Ltac unfold_step :=
  unfold processExtrinsic, sendSigned, sendUnsigned, log, sleep.

(** One transaction: what is appended to the trace. *)
Lemma processExtrinsic_events (st : Loop) (extrinsic : Extrinsic) :
  wp (step st extrinsic)
     (fun evs _ => Forall withoutOptions evs /\ delayed evs = false /\
                   (dry_ = true -> submitted evs = false)).
Proof.
  unfold_step. destruct dry_; cbn [negb]; wp_go.
  all: cbn; repeat split; try discriminate; repeat constructor.
Qed.

(** One transaction: the wait flag is raised exactly by a submission
    made while pacing is on. *)
Lemma processExtrinsic_wait (st : Loop) (extrinsic : Extrinsic) :
  wp (step st extrinsic)
     (fun evs r => forall st', r = Ok st' ->
                   wait st' = wait st || (trickle_ && submitted evs)).
Proof.
  unfold_step. destruct dry_, trickle_; cbn [negb]; wp_go.
  all: cbn; intros st' E; try discriminate; injection E as <-; cbn;
    rewrite ?orb_false_r, ?orb_true_r; reflexivity.
Qed.




(** The inner loop. *)
Lemma extrinsics_events (l : list Extrinsic) (st : Loop) :
  wp (forOf step st l)
     (fun evs _ => Forall withoutOptions evs /\ delayed evs = false /\
                   (dry_ = true -> submitted evs = false)).
Proof.
  revert st.
  apply (wp_forOf_events step
           (fun evs => Forall withoutOptions evs /\ delayed evs = false /\
                       (dry_ = true -> submitted evs = false))).
  - repeat split; auto.
  - intros a b (Ha1 & Ha2 & Ha3) (Hb1 & Hb2 & Hb3).
    rewrite delayed_app, submitted_app, Ha2, Hb2.
    repeat split; [now apply Forall_app |].
    intros Hd. now rewrite Ha3, Hb3.
  - apply processExtrinsic_events.
Qed.

Lemma extrinsics_wait (l : list Extrinsic) :
  forall st,
    wp (forOf step st l)
       (fun evs r => forall st', r = Ok st' ->
                     wait st' = wait st || (trickle_ && submitted evs)).
Proof.
  induction l as [| x xs IH]; intros st; cbn [forOf].
  - apply wp_ret. intros st' E; injection E as <-. cbn.
    now rewrite andb_false_r, orb_false_r.
  - apply wp_bind. eapply wp_conseq; [apply processExtrinsic_wait |].
    intros evs [st1 | e |] H; cbn; try discriminate.
    eapply wp_conseq; [apply IH |]. cbn. intros evs' r' H' st' E.
    rewrite (H' st' E), (H st1 eq_refl), submitted_app.
    destruct (wait st), trickle_, (submitted evs), (submitted evs'); reflexivity.
Qed.


(** One block. *)
Lemma processBlock_events (st : Loop) (block : Block) :
  wp (blockStep st block)
     (fun evs _ => Forall withoutOptions evs /\
                   (dry_ = true -> submitted evs = false)).
Proof.
  unfold processBlock, log, sleep. apply wp_bind, wp_emit. lazy beta iota.
  apply wp_bind. eapply wp_conseq; [apply extrinsics_events |].
  intros evs r (H1 & H2 & H3).
  assert (Hlog : Forall withoutOptions
                   ([ConsoleLog (CheckingBlock (number block))] ++ evs)).
  { constructor; [exact I | exact H1]. }
  destruct r as [st1 | e |]; [| cbn; auto ..].
  destruct (wait st1); wp_go; rewrite ?app_nil_r.
  - split; [| intros Hd; cbn; rewrite submitted_app, (H3 Hd); reflexivity].
    rewrite app_assoc. apply Forall_app. split; [exact Hlog |].
    repeat constructor.
  - split; [exact Hlog | exact H3].
Qed.

(** One block: the sequencer sleeps at its end exactly when the wait
    flag is up, and the flag is up when it was before or when pacing is
    on and a submission was made. *)
Lemma processBlock_wait (st : Loop) (block : Block) :
  wp (blockStep st block)
     (fun evs r =>
        (forall st', r = Ok st' ->
                     wait st' = wait st || (trickle_ && submitted evs) /\
                     delayed evs = wait st') /\
        (isOk r = false -> delayed evs = false)).
Proof.
  unfold processBlock, log, sleep. apply wp_bind, wp_emit. lazy beta iota.
  apply wp_bind.
  eapply wp_conseq with
    (Q := fun evs r =>
            delayed evs = false /\
            (forall st', r = Ok st' ->
                         wait st' = wait st || (trickle_ && submitted evs))).
  { intros tr. destruct (extrinsics_events (extrinsics block) st tr)
      as (evs & r & E & _ & Hd & _).
    destruct (extrinsics_wait (extrinsics block) st tr)
      as (evs' & r' & E' & Hw).
    rewrite E in E'. injection E' as E1 E2. apply app_inv_head in E1.
    subst evs' r'. eauto. }
  intros evs r [Hd Hw].
  destruct r as [st1 | e |]; cbn [app];
    [| split; [discriminate | intros _; cbn; exact Hd] ..].
  specialize (Hw st1 eq_refl).
  destruct (wait st1) eqn:W; wp_go; rewrite ?app_nil_r.
  all: split; [| discriminate].
  all: intros st' E; injection E as <-; rewrite W.
  all: unfold submitted, delayed in *.
  all: repeat (rewrite ?existsb_app;
               progress cbn [app existsb isSleep isSubmission orb]).
  all: rewrite ?Hd, ?orb_false_r.
  all: split; [exact Hw | reflexivity].
Qed.


End Steps.

Section Blocks.

Variable api : ApiPromise.
Variable ignored : list string.
Variables dry_ trickle_ : bool.
Variable mySigner : string.
Variable startingNonce : Z.

Local Abbreviation blockStep :=
  (processBlock api ignored dry_ trickle_ mySigner startingNonce).

(** The outer loop. *)
Lemma blocks_events (l : list Block) (st : Loop) :
  wp (forOf blockStep st l)
     (fun evs _ => Forall withoutOptions evs /\
                   (dry_ = true -> submitted evs = false)).
Proof.
  revert st.
  apply (wp_forOf_events blockStep
           (fun evs => Forall withoutOptions evs /\
                       (dry_ = true -> submitted evs = false))).
  - split; auto.
  - intros a b [Ha1 Ha2] [Hb1 Hb2]. split; [now apply Forall_app |].
    intros Hd. now rewrite submitted_app, Ha2, Hb2.
  - apply processBlock_events.
Qed.

Lemma blocks_wait (l : list Block) :
  forall st,
    wp (forOf blockStep st l)
       (fun evs r => forall st', r = Ok st' ->
                     wait st' = wait st || (trickle_ && submitted evs)).
Proof.
  induction l as [| b bs IH]; intros st; cbn [forOf].
  - apply wp_ret. intros st' E; injection E as <-. cbn.
    now rewrite andb_false_r, orb_false_r.
  - apply wp_bind. eapply wp_conseq; [apply processBlock_wait |].
    intros evs [st1 | e |] [H _]; cbn; try discriminate.
    eapply wp_conseq; [apply IH |]. cbn. intros evs' r' H' st' E.
    destruct (H st1 eq_refl) as [Hw _].
    rewrite (H' st' E), Hw, submitted_app.
    destruct (wait st), trickle_, (submitted evs), (submitted evs'); reflexivity.
Qed.



End Blocks.

(* ================================================================== *)
(** ** Errors of the authorization gate *)
(* ================================================================== *)

Lemma neverGate_Ok {A : Type} (a : A) : neverGate (Ok a).
Proof. intros e; discriminate. Qed.

Lemma neverGate_OutOfFuel {A : Type} : neverGate (@OutOfFuel A).
Proof. intros e; discriminate. Qed.

Lemma neverGate_Throw {A : Type} (e : Error) :
  isGateError e = false -> neverGate (@Throw A e).
Proof. intros H e' E; injection E as <-; exact H. Qed.

Lemma neverGate_rbind {A B : Type} (r : Result A) (k : A -> Result B) :
  neverGate r -> (forall a, neverGate (k a)) -> neverGate (rbind r k).
Proof.
  intros Hr Hk. destruct r as [a | e |]; cbn; auto.
  - intros e' E; injection E as <-. now apply Hr.
  - apply neverGate_OutOfFuel.
Qed.

Lemma neverGate_get (v : JsValue) (name : string) : neverGate (get v name).
Proof.
  destruct v; cbn; try apply neverGate_Ok; try now apply neverGate_Throw.
  - destruct (String.eqb name "keys"); apply neverGate_Ok.
  - destruct (assoc name props); apply neverGate_Ok.
Qed.

Lemma neverGate_mapM {A B : Type} (f : A -> Result B) (l : list A) :
  (forall x, neverGate (f x)) -> neverGate (mapM f l).
Proof.
  intros Hf. induction l as [| x xs IH]; cbn; [apply neverGate_Ok |].
  apply neverGate_rbind; [apply Hf | intros y].
  apply neverGate_rbind; [apply IH | intros; apply neverGate_Ok].
Qed.

Lemma neverGate_fields (args : JsValue) (names : list string) :
  neverGate (fields args names).
Proof.
  apply neverGate_mapM. intros name.
  apply neverGate_rbind; [apply neverGate_get | intros; apply neverGate_Ok].
Qed.

Lemma neverGate_tx (api : ApiPromise) (section : string) (method : option string)
  (a : Result (list Arg)) :
  neverGate a -> neverGate (tx api section method a).
Proof.
  intros Ha. unfold tx, callee, invoke.
  destruct (hasSection api section); cbn; [| now apply neverGate_Throw].
  apply neverGate_rbind; [exact Ha | intros l].
  destruct (match method with Some m => hasMethod api section m | None => false end);
    [apply neverGate_Ok | now apply neverGate_Throw].
Qed.

Lemma neverGate_arrayMap {B : Type} (v : JsValue) (f : JsValue -> Result B) :
  (forall x, neverGate (f x)) -> neverGate (arrayMap v f).
Proof.
  intros Hf. destruct v; cbn; try now apply neverGate_Throw.
  now apply neverGate_mapM.
Qed.

Ltac gate_rule :=
  match goal with
  | |- neverGate (if ?b then _ else _) =>
      destruct b; [apply neverGate_tx, neverGate_fields |]
  end.

Lemma neverGate_createCall (api : ApiPromise) (fuel : nat) :
  forall details, neverGate (createCall api fuel details).
Proof.
  induction fuel as [| n IH]; intros details; [apply neverGate_OutOfFuel |].
  cbn [createCall].
  apply neverGate_rbind; [apply neverGate_get | intros args].
  apply neverGate_rbind; [apply neverGate_get | intros callIndex].
  destruct (findMetaCall api callIndex) as [[section method] |];
    [| now apply neverGate_Throw].
  do 9 gate_rule.
  destruct (String.eqb method "proxy").
  { apply neverGate_rbind; [apply neverGate_get | intros nested].
    apply neverGate_rbind; [apply IH | intros call].
    apply neverGate_tx.
    apply neverGate_rbind; [apply neverGate_fields | intros; apply neverGate_Ok]. }
  destruct (String.eqb method "sudo").
  { apply neverGate_tx.
    apply neverGate_rbind; [apply neverGate_get | intros nested].
    apply neverGate_rbind; [apply IH | intros; apply neverGate_Ok]. }
  destruct (String.eqb method "batch").
  { apply neverGate_rbind; [apply neverGate_get | intros nested].
    apply neverGate_rbind; [now apply neverGate_arrayMap | intros calls].
    apply neverGate_tx, neverGate_Ok. }
  gate_rule. now apply neverGate_Throw.
Qed.

Lemma neverGate_constructProposal (api : ApiPromise) (module : string)
  (txType : option string) (args : list JsValue) :
  neverGate (constructProposal api module txType args).
Proof.
  unfold constructProposal, resolve.
  repeat match goal with
         | |- neverGate (if ?b then _ else _) => destruct b
         end.
  - apply neverGate_rbind;
      [apply neverGate_arrayMap; intros; apply neverGate_createCall |].
    intros; apply neverGate_tx, neverGate_Ok.
  - apply neverGate_tx, neverGate_rbind;
      [apply neverGate_createCall | intros; apply neverGate_Ok].
  - apply neverGate_tx, neverGate_rbind;
      [apply neverGate_createCall | intros; apply neverGate_Ok].
  - apply neverGate_tx, neverGate_rbind;
      [apply neverGate_createCall | intros; apply neverGate_Ok].
  - apply neverGate_tx, neverGate_Ok.
Qed.

Lemma neverGate_isRuntimeUpgrade (txType : option string) (args : list JsValue) :
  neverGate (isRuntimeUpgrade txType args).
Proof.
  unfold isRuntimeUpgrade. destruct (isType txType "sudoUncheckedWeight");
    [| apply neverGate_Ok].
  apply neverGate_rbind; [apply neverGate_get | intros inner].
  apply neverGate_rbind; [apply neverGate_get | intros; apply neverGate_Ok].
Qed.

Lemma neverGate_checkComplete (blocks : list Block) :
  neverGate (checkComplete blocks).
Proof.
  intros e H. apply completeLoop_Throw in H; [| lia].
  destruct H as (i & b & got & _ & _ & _ & _ & _ & -> & _). reflexivity.
Qed.

Section Gate.

Variable api : ApiPromise.
Variable ignored : list string.
Variables dry_ trickle_ : bool.
Variable mySigner : string.
Variable startingNonce : Z.

Lemma processExtrinsic_neverGate (st : Loop) (extrinsic : Extrinsic) :
  wp (processExtrinsic api ignored dry_ trickle_ mySigner startingNonce
                       st extrinsic)
     (fun _ r => neverGate r).
Proof.
  unfold processExtrinsic, sendSigned, sendUnsigned, log, sleep.
  wp_go.
  all: try apply neverGate_Ok; try apply neverGate_OutOfFuel.
  all: try (apply neverGate_Throw; reflexivity).
  all: match goal with
       | H : ?x = Throw ?e |- neverGate (Throw ?e) =>
           apply neverGate_Throw;
           first [ exact (neverGate_isRuntimeUpgrade _ _ _ H)
                 | exact (neverGate_get _ _ _ H)
                 | exact (neverGate_constructProposal _ _ _ _ _ H)
                 | exact (neverGate_tx _ _ _ _ (neverGate_Ok _) _ H) ]
       end.
Qed.

Lemma neverGate_forOf {A S : Type} (body : S -> A -> M S) :
  (forall st x, wp (body st x) (fun _ r => neverGate r)) ->
  forall l st, wp (forOf body st l) (fun _ r => neverGate r).
Proof.
  intros Hbody l. induction l as [| x xs IH]; intros st; cbn [forOf].
  - apply wp_ret, neverGate_Ok.
  - apply wp_bind. eapply wp_conseq; [apply Hbody |].
    intros evs [st' | e |] H; cbn; [apply IH | exact H | exact H].
Qed.

Lemma processBlock_neverGate (st : Loop) (block : Block) :
  wp (processBlock api ignored dry_ trickle_ mySigner startingNonce st block)
     (fun _ r => neverGate r).
Proof.
  unfold processBlock, log, sleep. apply wp_bind, wp_emit. lazy beta iota.
  apply wp_bind.
  eapply wp_conseq; [apply neverGate_forOf, processExtrinsic_neverGate |].
  intros evs [st1 | e |] H; cbn; auto.
  destruct (wait st1); wp_go; apply neverGate_Ok.
Qed.

End Gate.

(* ================================================================== *)
(** ** The sequencer never runs out of fuel *)
(* ================================================================== *)

Lemma resolve_returns (api : ApiPromise) (details : JsValue) :
  returns (resolve api details).
Proof. apply createCall_returns. unfold fuelFor. lia. Qed.

Lemma constructProposal_returns (api : ApiPromise) (module : string)
  (txType : option string) (args : list JsValue) :
  returns (constructProposal api module txType args).
Proof.
  unfold constructProposal.
  repeat match goal with
         | |- returns (if ?b then _ else _) => destruct b
         end.
  - apply returns_rbind;
      [apply arrayMap_returns; intros; apply resolve_returns |].
    intros; apply tx_returns; exact I.
  - apply tx_returns, returns_rbind;
      [apply resolve_returns | intros; exact I].
  - apply tx_returns, returns_rbind;
      [apply resolve_returns | intros; exact I].
  - apply tx_returns, returns_rbind;
      [apply resolve_returns | intros; exact I].
  - apply tx_returns; exact I.
Qed.

Lemma isRuntimeUpgrade_returns (txType : option string) (args : list JsValue) :
  returns (isRuntimeUpgrade txType args).
Proof.
  unfold isRuntimeUpgrade. destruct (isType txType "sudoUncheckedWeight");
    [| exact I].
  apply returns_rbind; [apply get_returns | intros inner _].
  apply returns_rbind; [apply get_returns | intros; exact I].
Qed.

Lemma returns_absurd {A : Type} (r : Result A) (P : Prop) :
  returns r -> r = OutOfFuel -> P.
Proof. intros H E. rewrite E in H. contradiction. Qed.

Lemma processExtrinsic_returns
  (api : ApiPromise) (ignored : list string) (dry_ trickle_ : bool)
  (mySigner : string) (startingNonce : Z) (st : Loop) (extrinsic : Extrinsic) :
  wp (processExtrinsic api ignored dry_ trickle_ mySigner startingNonce
                       st extrinsic)
     (fun _ r => returns r).
Proof.
  unfold processExtrinsic, sendSigned, sendUnsigned, log, sleep.
  wp_go.
  all: try exact I.
  all: match goal with
       | H : ?x = OutOfFuel |- _ =>
           first [ exact (returns_absurd _ _ (isRuntimeUpgrade_returns _ _) H)
                 | exact (returns_absurd _ _ (get_returns _ _) H)
                 | exact (returns_absurd _ _
                            (constructProposal_returns _ _ _ _) H)
                 | exact (returns_absurd _ _
                            (tx_returns _ _ _ _ (returns_Ok _)) H) ]
       end.
Qed.

Lemma returns_forOf {A S : Type} (body : S -> A -> M S) :
  (forall st x, wp (body st x) (fun _ r => returns r)) ->
  forall l st, wp (forOf body st l) (fun _ r => returns r).
Proof.
  intros Hbody l. induction l as [| x xs IH]; intros st; cbn [forOf].
  - apply wp_ret. exact I.
  - apply wp_bind. eapply wp_conseq; [apply Hbody |].
    intros evs [st' | e |] H; cbn; [apply IH | exact I | exact H].
Qed.

Lemma processBlock_returns
  (api : ApiPromise) (ignored : list string) (dry_ trickle_ : bool)
  (mySigner : string) (startingNonce : Z) (st : Loop) (block : Block) :
  wp (processBlock api ignored dry_ trickle_ mySigner startingNonce st block)
     (fun _ r => returns r).
Proof.
  unfold processBlock, log, sleep. apply wp_bind, wp_emit. lazy beta iota.
  apply wp_bind.
  eapply wp_conseq; [apply returns_forOf, processExtrinsic_returns |].
  intros evs [st1 | e |] H; cbn; auto.
  destruct (wait st1); wp_go; exact I.
Qed.

(* ================================================================== *)
(** ** The whole run *)
(* ================================================================== *)

Ltac migrate_prelude :=
  unfold migrate, log;
  apply wp_bind;
  match goal with
  | |- wp (if ?b then _ else _) _ => destruct b eqn:?
  end;
  [ apply wp_lift;
    match goal with
    | |- match ?r with _ => _ end => destruct r as [[] | ? | ] eqn:?
    end
  | apply wp_ret ];
  lazy beta iota;
  try (apply wp_bind, wp_emit; lazy beta iota;
       apply wp_bind;
       match goal with
       | |- wp (if ?b then _ else _) _ => destruct b eqn:?
       end;
       [ apply wp_throw | apply wp_ret; lazy beta iota; apply wp_bind ]).

Lemma migrate_events (env : Env) (opts : Options) :
  wp (migrate env opts)
     (fun evs _ => Forall withoutOptions evs /\
                   (dry opts = true -> submitted evs = false)).
Proof.
  migrate_prelude.
  all: try (eapply wp_conseq; [apply blocks_events |];
            intros evs r [H1 H2];
            assert (Forall withoutOptions
                      ([] ++ [ConsoleLog
                                (SignerAddress
                                   (initializeSigner env (suri opts)))]
                          ++ [] ++ evs)
                    /\ (dry opts = true ->
                        submitted ([] ++ [ConsoleLog
                                            (SignerAddress
                                               (initializeSigner env (suri opts)))]
                                      ++ [] ++ evs) = false))
              by (split; [constructor; [exact I | exact H1] | exact H2]);
            destruct r as [st | e |]; [apply wp_ret | ..];
            rewrite ?app_nil_r; assumption).
  all: cbn; split; repeat constructor.
Qed.

Lemma migrate_neverGate (env : Env) (opts : Options) :
  dry opts = true ->
  wp (migrate env opts) (fun _ r => neverGate r).
Proof.
  intros Hdry. migrate_prelude.
  all: try (eapply wp_conseq;
            [apply neverGate_forOf; intros; apply processBlock_neverGate |];
            intros evs [st | e |] H;
            [ apply wp_ret, neverGate_Ok
            | apply neverGate_Throw, (H e eq_refl)
            | apply neverGate_OutOfFuel ]).
  all: try apply neverGate_OutOfFuel.
  all: try (eapply neverGate_Throw, neverGate_checkComplete; eassumption).
  all: match goal with
       | H : negb (dry _) && _ = true |- _ =>
           rewrite Hdry in H; cbn in H; discriminate H
       end.
Qed.

(** Every run comes to an end, with [Ok tt] or with an exception. *)
Lemma migrate_returns (env : Env) (opts : Options) :
  wp (migrate env opts) (fun _ r => returns r).
Proof.
  migrate_prelude.
  all: try (eapply wp_conseq;
            [apply returns_forOf; intros; apply processBlock_returns |];
            intros evs [st | e |] H; [apply wp_ret | ..]; solve [exact I | exact H]).
  all: try exact I.
  all: eapply returns_absurd; [apply checkComplete_returns | eassumption].
Qed.

Lemma run_returns (env : Env) (opts : Options) :
  returns (snd (run env opts)).
Proof.
  destruct (wp_run _ _ [] (migrate_returns env opts)) as (evs & _ & H).
  exact H.
Qed.




(* ================================================================== *)
(** ** The sequencer: main results *)
(* ================================================================== *)

(** C1.  The completeness check at the log of the blocks numbered 1, 2
    and 4: the loop compares the blocks at positions 1 and 2 with their
    positions and stops before the last one, so the check passes and the
    run goes through the three blocks, where a gap error citing 3 is
    called for ([checkComplete_Ok] tells which logs pass). *)
Theorem checkComplete_misses_last_block :
  checkComplete (sortBlocks [ex_block 4 []; ex_block 1 []; ex_block 2 []])
    = Ok tt
  /\ run (ex_env [ex_block 4 []; ex_block 1 []; ex_block 2 []] "5Migrator")
         (ex_opts false true false)
     = ([ConsoleLog (SignerAddress "5Migrator");
         ConsoleLog (CheckingBlock 1);
         ConsoleLog (CheckingBlock 2);
         ConsoleLog (CheckingBlock 4)],
        Ok tt).
Proof. split; reflexivity. Qed.

(** The logs 1, 2, 3 and 1, 3, 4 are handled as expected: the first
    passes, the second fails citing 2. *)
Example checkComplete_contiguous :
  checkComplete (sortBlocks [ex_block 3 []; ex_block 1 []; ex_block 2 []])
    = Ok tt.
Proof. reflexivity. Qed.

Example checkComplete_gap_inside :
  checkComplete (sortBlocks [ex_block 3 []; ex_block 1 []; ex_block 4 []])
    = Throw (MissingBlock 2 4).
Proof. reflexivity. Qed.



Example example_signed_submission :
  run (ex_env [ex_block 1 [ex_transferTx]] "5Migrator") (ex_opts false true false)
  = ([ConsoleLog (SignerAddress "5Migrator");
      ConsoleLog (CheckingBlock 1);
      ConsoleLog (Migrating 100 "balances" (Some "transfer") (JStr "5Alice"));
      SignAndSend
        (mkCall "sudo" "sudoAs"
           [ArgVal (JStr "5Alice");
            ArgCall (mkCall "balances" "transfer"
                            [ArgVal (JStr "5Bob"); ArgVal (JNum 10)])])
        "5Migrator" None 100 (JStr "0xh")],
     Ok tt).
Proof. reflexivity. Qed.

(** C3, as stated, fails: with pacing on, a block without any submission
    that comes after a block with one is still followed by the delay. *)
Lemma pacing_delay_without_submission :
  let tr := fst (run (ex_env [ex_block 1 [ex_transferTx]; ex_block 2 []]
                             "5Migrator")
                     (ex_opts false true true)) in
  submitted (blockEvents 2 tr) = false /\ delayed (blockEvents 2 tr) = true.
Proof. split; reflexivity. Qed.

(** C3, amended.  The wait flag is raised by a submission made while
    pacing is on and is never lowered: the sequencer sleeps at the end
    of a block exactly when pacing is on and a submission was made in
    that block or in an earlier block of the run.  Here [before] are the
    events of the blocks [earlier] and [here] those of [block]. *)
Theorem pacing_delay_is_sticky
  (api : ApiPromise) (ignored : list string) (dry_ trickle_ : bool)
  (mySigner : string) (startingNonce : Z)
  (earlier : list Block) (block : Block)
  (tr0 tr tr' : list Event) (st st' : Loop) :
  forOf (processBlock api ignored dry_ trickle_ mySigner startingNonce)
        {| index := 0; wait := false |} earlier tr0 = (tr, Ok st) ->
  processBlock api ignored dry_ trickle_ mySigner startingNonce st block tr
    = (tr', Ok st') ->
  exists before here,
    tr = tr0 ++ before /\ tr' = tr ++ here /\
    delayed here = trickle_ && (submitted before || submitted here).
Proof.
  intros Hearlier Hblock.
  destruct (blocks_wait api ignored dry_ trickle_ mySigner startingNonce
              earlier {| index := 0; wait := false |} tr0)
    as (before & r & E & Hw).
  rewrite Hearlier in E. injection E as -> <-.
  destruct (processBlock_wait api ignored dry_ trickle_ mySigner startingNonce
              st block (tr0 ++ before))
    as (here & r' & E' & Hb & _).
  rewrite Hblock in E'. injection E' as -> <-.
  exists before, here. repeat split.
  destruct (Hb st' eq_refl) as [Hw' ->].
  rewrite Hw', (Hw st eq_refl). cbn [wait orb].
  destruct trickle_, (submitted before), (submitted here); reflexivity.
Qed.

Lemma pacing_delay_is_sticky_witness :
  exists before here,
    [ConsoleLog (CheckingBlock 1);
     ConsoleLog (Migrating 100 "balances" (Some "transfer") (JStr "5Alice"));
     SignAndSend
       (mkCall "sudo" "sudoAs"
          [ArgVal (JStr "5Alice");
           ArgCall (mkCall "balances" "transfer"
                           [ArgVal (JStr "5Bob"); ArgVal (JNum 10)])])
       "5Migrator" None 100 (JStr "0xh");
     Sleep 6000]
    = [] ++ before
    /\
    [ConsoleLog (CheckingBlock 1);
     ConsoleLog (Migrating 100 "balances" (Some "transfer") (JStr "5Alice"));
     SignAndSend
       (mkCall "sudo" "sudoAs"
          [ArgVal (JStr "5Alice");
           ArgCall (mkCall "balances" "transfer"
                           [ArgVal (JStr "5Bob"); ArgVal (JNum 10)])])
       "5Migrator" None 100 (JStr "0xh");
     Sleep 6000;
     ConsoleLog (CheckingBlock 2);
     Sleep 6000]
    = [ConsoleLog (CheckingBlock 1);
       ConsoleLog (Migrating 100 "balances" (Some "transfer") (JStr "5Alice"));
       SignAndSend
         (mkCall "sudo" "sudoAs"
            [ArgVal (JStr "5Alice");
             ArgCall (mkCall "balances" "transfer"
                             [ArgVal (JStr "5Bob"); ArgVal (JNum 10)])])
         "5Migrator" None 100 (JStr "0xh");
       Sleep 6000] ++ here
    /\ delayed here = true && (submitted before || submitted here).
Proof.
  apply (pacing_delay_is_sticky
           (ex_api "5Migrator") ["timestamp.set"] false true "5Migrator" 100
           [ex_block 1 [ex_transferTx]] (ex_block 2 [])
           [] _ _ {| index := 1; wait := true |} {| index := 1; wait := true |});
    reflexivity.
Defined.

Lemma dry_run_ignores_sudo_key (env : Env) (opts : Options) (key : string) :
  dry opts = true ->
  run (envWithSudoKey env key) opts = run env opts.
Proof.
  intros Hdry. unfold run, migrate. rewrite Hdry. cbn [negb andb].
  reflexivity.
Qed.

(** C4.  When the address of the derived signer differs from the sudo
    key of the network:
    - with dry mode off the run ends with an exception and without any
      submission, and that exception is the authorization error as soon
      as the completeness check, if enabled, has passed (it comes
      first), the only thing done before being the message with the
      signer's address;
    - with dry mode on the run never ends with the authorization error
      and is, event for event, the run against a network whose sudo key
      is the signer's address. *)
Theorem authorization_gate (env : Env) (opts : Options) :
  let api := initApi env (wsEndpoint opts) in
  let mySigner := initializeSigner env (suri opts) in
  mySigner <> sudoKey api ->
  (dry opts = false ->
   submitted (fst (run env opts)) = false /\
   (exists e, snd (run env opts) = Throw e) /\
   (ensureComplete opts = false \/
    checkComplete (sortBlocks (readDb env (dbPath opts))) = Ok tt ->
    run env opts
    = ([ConsoleLog (SignerAddress mySigner)],
       Throw (NotSudoSigner mySigner (sudoKey api)))))
  /\
  (dry opts = true ->
   (forall got expected,
       snd (run env opts) <> Throw (NotSudoSigner got expected)) /\
   run env opts = run (envWithSudoKey env mySigner) opts).
Proof.
  intros api mySigner Hne. split.
  - intros Hdry. apply String.eqb_neq in Hne. subst api mySigner.
    unfold run, migrate, bind, lift, log, emit, ret, throw.
    rewrite Hdry, Hne. cbn [negb andb].
    destruct (ensureComplete opts).
    + pose proof (checkComplete_returns
                    (sortBlocks (readDb env (dbPath opts)))) as Hret.
      destruct (checkComplete (sortBlocks (readDb env (dbPath opts))))
        as [[] | e |]; cbn in *; [| | contradiction].
      * repeat split; eauto.
      * repeat split; eauto. intros [H | H]; discriminate.
    + cbn. repeat split; eauto.
  - intros Hdry. split.
    + intros got expected H.
      destruct (wp_run _ _ [] (migrate_neverGate env opts Hdry))
        as (evs & _ & Hg).
      specialize (Hg _ H). discriminate.
    + symmetry. now apply dry_run_ignores_sudo_key.
Qed.

Lemma authorization_gate_witness :
  (submitted (fst (run (ex_env [ex_block 1 [ex_transferTx]] "5Other")
                       (ex_opts false true false))) = false
   /\ run (ex_env [ex_block 1 [ex_transferTx]] "5Other")
          (ex_opts false true false)
      = ([ConsoleLog (SignerAddress "5Migrator")],
         Throw (NotSudoSigner "5Migrator" "5Other")))
  /\
  run (ex_env [ex_block 1 [ex_transferTx]] "5Other") (ex_opts true true false)
  = run (envWithSudoKey (ex_env [ex_block 1 [ex_transferTx]] "5Other")
                        "5Migrator")
        (ex_opts true true false).
Proof.
  assert (Hne : "5Migrator" <> "5Other") by discriminate.
  split.
  - destruct (authorization_gate
                (ex_env [ex_block 1 [ex_transferTx]] "5Other")
                (ex_opts false true false) Hne) as [H _].
    destruct (H eq_refl) as (H1 & _ & H3).
    split; [exact H1 | apply H3; right; reflexivity].
  - destruct (authorization_gate
                (ex_env [ex_block 1 [ex_transferTx]] "5Other")
                (ex_opts true true false) Hne) as [_ H].
    exact (proj2 (H eq_refl)).
Defined.

Example dry_run_with_mismatch :
  run (ex_env [ex_block 1 [ex_transferTx]] "5Other") (ex_opts true true false)
  = ([ConsoleLog (SignerAddress "5Migrator");
      ConsoleLog (CheckingBlock 1);
      ConsoleLog (Migrating 100 "balances" (Some "transfer") (JStr "5Alice"))],
     Ok tt).
Proof. reflexivity. Qed.



(** Starting nonce 100, three signed transactions and one unsigned one
    in between: the nonces are 100, 101 and 102. *)
Example example_nonces_from_100 :
  let tr := fst (run (ex_env [ex_block 1 [ex_transferTx; ex_claimTx;
                                          ex_transferTx; ex_transferTx]]
                             "5Migrator")
                     (ex_opts false true false)) in
  nonces tr = [100; 101; 102] /\ submittedNonces tr = [100; 101; 102] /\
  List.length (filter isSubmission tr) = 4%nat.
Proof. repeat split. Qed.

(** C6.  A [sudoUncheckedWeight] transaction whose first argument has a
    truthy [args.code] (the source's test for "carries a code field":
    the field is there, and is not an empty, null, zero or false value)
    is skipped.  Whatever the client and the options, all that happens
    is one message, the counter and the wait flag stay as they are, and
    nothing is resolved, constructed or submitted; the transaction is
    not counted among those of the signed path. *)
Theorem runtime_upgrade_is_skipped
  (api : ApiPromise) (ignored : list string) (dry_ trickle_ : bool)
  (mySigner : string) (startingNonce : Z)
  (st : Loop) (extrinsic : Extrinsic) (inner code : JsValue)
  (tr : list Event) :
  nth_error (split "." (method extrinsic)) 1 = Some "sudoUncheckedWeight" ->
  get (nth 0 (args extrinsic) JUndefined) "args" = Ok inner ->
  get inner "code" = Ok code ->
  truthy code = true ->
  takesSignedPath ignored extrinsic = false /\
  exists msg,
    (msg = SkippingRuntimeUpgrade \/
     msg = SkippingIgnoreMethod (method extrinsic)) /\
    processExtrinsic api ignored dry_ trickle_ mySigner startingNonce
                     st extrinsic tr
    = (tr ++ [ConsoleLog msg], Ok st).
Proof.
  intros Htype Hinner Hcode Htruthy.
  assert (Hup : isRuntimeUpgrade (nth_error (split "." (method extrinsic)) 1)
                                 (args extrinsic) = Ok true).
  { unfold isRuntimeUpgrade. rewrite Htype. cbn [isType].
    rewrite String.eqb_refl, Hinner. cbn [rbind]. rewrite Hcode. cbn [rbind].
    now rewrite Htruthy. }
  split.
  - unfold takesSignedPath. rewrite Hup. apply andb_false_r.
  - unfold processExtrinsic.
    destruct (includes ignored (method extrinsic)).
    + exists (SkippingIgnoreMethod (method extrinsic)). split; [now right |].
      reflexivity.
    + exists SkippingRuntimeUpgrade. split; [now left |].
      unfold bind, lift. rewrite Hup. reflexivity.
Qed.

Lemma runtime_upgrade_is_skipped_witness :
  takesSignedPath ["timestamp.set"] ex_upgradeTx = false /\
  exists msg,
    (msg = SkippingRuntimeUpgrade \/
     msg = SkippingIgnoreMethod "sudo.sudoUncheckedWeight") /\
    processExtrinsic (ex_api "5Migrator") ["timestamp.set"] false true
                     "5Migrator" 100 {| index := 2; wait := false |}
                     ex_upgradeTx []
    = ([] ++ [ConsoleLog msg], Ok {| index := 2; wait := false |}).
Proof.
  apply (runtime_upgrade_is_skipped
           (ex_api "5Migrator") ["timestamp.set"] false true "5Migrator" 100
           {| index := 2; wait := false |} ex_upgradeTx
           (JObj [("code", JStr "0x0061736d")]) (JStr "0x0061736d") []);
    reflexivity.
Defined.

(** C9.  With dry mode on no submission is made in the whole run,
    signed or unsigned.  The signed path still reads the signer and
    constructs the proposal before anything else: an exception of the
    construction ends the step with that exception, and otherwise the
    step prints its message and moves the counter. *)
Theorem dry_mode_submits_nothing (env : Env) (opts : Options) :
  dry opts = true ->
  submitted (fst (run env opts)) = false /\
  (forall st module txType extrinsic tr,
      let api := initApi env (wsEndpoint opts) in
      let mySigner := initializeSigner env (suri opts) in
      let startingNonce := accountNonce api mySigner in
      sendSigned api (dry opts) (trickle opts) mySigner startingNonce
                 st module txType extrinsic tr
      = match get (signature extrinsic) "signer" with
        | Ok signer =>
            match constructProposal api module txType (args extrinsic) with
            | Ok _ =>
                (tr ++ [ConsoleLog
                          (Migrating (startingNonce + Z.of_nat (index st))
                                     module txType signer)],
                 Ok (incrIndex st))
            | Throw e => (tr, Throw e)
            | OutOfFuel => (tr, OutOfFuel)
            end
        | Throw e => (tr, Throw e)
        | OutOfFuel => (tr, OutOfFuel)
        end).
Proof.
  intros Hdry. split.
  - destruct (wp_run _ _ [] (migrate_events env opts)) as (evs & E & _ & H).
    unfold run. rewrite E. now apply H.
  - intros st module txType extrinsic tr. cbn zeta. rewrite Hdry.
    unfold sendSigned, bind, lift, log, emit, ret. cbn [negb].
    destruct (get (signature extrinsic) "signer"); reflexivity.
Qed.

Lemma dry_mode_submits_nothing_witness :
  submitted
    (fst (run (ex_env [ex_block 1 [ex_transferTx; ex_claimTx; ex_badBatchTx]]
                      "5Migrator")
              (ex_opts true true true))) = false
  /\ sendSigned (ex_api "5Migrator") true true "5Migrator" 100
                {| index := 1; wait := false |} "utility" (Some "batch")
                ex_badBatchTx []
     = ([], Throw (MethodMissing "system" "remark")).
Proof.
  destruct (dry_mode_submits_nothing
              (ex_env [ex_block 1 [ex_transferTx; ex_claimTx; ex_badBatchTx]]
                      "5Migrator")
              (ex_opts true true true) eq_refl) as [H1 H2].
  split; [exact H1 |].
  exact (H2 {| index := 1; wait := false |} "utility" (Some "batch")
            ex_badBatchTx []).
Defined.

Example dry_run_validates :
  run (ex_env [ex_block 1 [ex_transferTx; ex_claimTx; ex_badBatchTx]]
              "5Migrator")
      (ex_opts true true true)
  = ([ConsoleLog (SignerAddress "5Migrator");
      ConsoleLog (CheckingBlock 1);
      ConsoleLog (Migrating 100 "balances" (Some "transfer") (JStr "5Alice"));
      ConsoleLog StubbingUnsigned],
     Throw (MethodMissing "system" "remark")).
Proof. reflexivity. Qed.
